(** * CRNN_Tensorflow: the label codec of [local_utils/data_utils.py]

    A shallow embedding of [FeatureIO] (character and index mapping, label
    encoding, sparse tensor decoding, the feature wrappers) and of
    [TextFeatureWriter.write_features], followed by the properties of the
    codec.

    Conventions of the embedding.
    - A Python [str] is a [pystr], the list of its code points; a character
      is a string of one code point. [lit] writes a string of code points
      below 256 from a literal.
    - A Python [int] is a [Z]; [bytes] is a [list byte].
    - A [dict] loaded from JSON is an association list in insertion order
      (the order [items()] iterates in); lookup takes the first entry with
      the key.
    - A raised exception is the [Raise] outcome of the [result] monad.
    - The tables of the Unicode character database that [str.lower()] and
      [int()] consult are a parameter, the class [Unicode].
    - The file system, the record writer and the standard output are a
      parameter, the class [Storage]; paths are POSIX paths.
    - Integers are unbounded. The limit that interpreters from 3.7.14 on put
      on the number of digits [int] and [str] convert (4300 unless
      configured) is not part of the embedding. *)

From Stdlib Require Import ZArith NArith Ascii String DecimalString DecimalZ Lia ZifyBool.
From Stdlib.Strings Require Import Byte.
From stdpp Require Import base list.

Open Scope Z_scope.

(** ** Strings *)

Definition pystr : Type := list N.

(** The string of the code points of a literal (each below 256). *)
Definition lit (s : string) : pystr := N_of_ascii <$> list_ascii_of_string s.

(** ** Exceptions and the result monad *)

Inductive exn : Set :=
| KeyError
| ValueError
| TypeError
| IndexError
| AssertionError
| FileNotFoundError
| UnicodeEncodeError
| OSError (errno : N)
| OpError (code : N).

Inductive result (A : Type) : Type :=
| Ok (a : A)
| Raise (e : exn).

Arguments Ok {A} a.
Arguments Raise {A} e.

#[global] Instance result_ret : MRet result := fun _ a => Ok a.

#[global] Instance result_bind : MBind result := fun _ _ f r =>
  match r with
  | Ok a => f a
  | Raise e => Raise e
  end.

#[global] Instance result_fmap : FMap result := fun _ _ f r =>
  match r with
  | Ok a => Ok (f a)
  | Raise e => Raise e
  end.

Definition is_ok {A} (r : result A) : bool :=
  match r with Ok _ => true | Raise _ => false end.

(** ** The Unicode character database *)

Definition CAPITAL_SIGMA : N := 0x3A3.
Definition SMALL_SIGMA : N := 0x3C3.
Definition FINAL_SIGMA : N := 0x3C2.

(** The tables the interpreter consults: the full lower-case mapping of a
    code point (one to three code points), the properties Cased and
    Case_Ignorable, the white space of [str.isspace], and the value of a
    decimal digit. One fact about them is used: a character that is the
    lower case of a character is its own lower case (the capital sigma
    alone becomes the small sigma). *)
Class Unicode : Type := {
  to_lower_full : N → pystr;
  is_cased : N → bool;
  is_case_ignorable : N → bool;
  is_space : N → bool;
  to_decimal : N → option N;
  lower_stable : ∀ c c' : N,
    (if (c =? CAPITAL_SIGMA)%N then [SMALL_SIGMA] else to_lower_full c) = [c'] →
    (if (c' =? CAPITAL_SIGMA)%N then [SMALL_SIGMA] else to_lower_full c') = [c']
}.

(** ** The Python built-ins the module calls *)

Module Py.

Definition between (lo hi n : N) : bool := ((lo <=? n) && (n <=? hi))%N.

(** [str(n)] for an integer: decimal digits, a minus sign when negative. *)
Definition str (n : Z) : pystr := lit (NilZero.string_of_int (Z.to_int n)).

(** [''.join(parts)] *)
Definition join (parts : list pystr) : pystr := concat parts.

(** [seq[i]] for a list and a non-negative position. *)
Definition getitem {A} (l : list A) (i : nat) : result A :=
  match l !! i with
  | Some a => Ok a
  | None => Raise IndexError
  end.

(** [ord(s)]: the code point of a string of one character. *)
Definition ord (s : pystr) : result Z :=
  match s with
  | [c] => Ok (Z.of_N c)
  | _ => Raise TypeError
  end.

(** White space of the ASCII range, as [int()] skips it. *)
Definition is_ascii_space (c : N) : bool := between 9 13 c || (c =? 32)%N.

Definition is_digit (c : N) : bool := between 48 57 c.

Definition digit_value (c : N) : Z := Z.of_N c - 48.

Fixpoint lstrip (s : pystr) : pystr :=
  match s with
  | [] => []
  | c :: rest => if is_ascii_space c then lstrip rest else s
  end.

Definition strip (s : pystr) : pystr := reverse (lstrip (reverse (lstrip s))).

(** The digits of an integer literal: decimal digits, with single
    underscores allowed between two digits. [seen] tells whether the
    previous character was a digit. *)
Fixpoint digits (acc : Z) (seen : bool) (s : pystr) : option Z :=
  match s with
  | [] => if seen then Some acc else None
  | c :: rest =>
      if is_digit c then digits (10 * acc + digit_value c) true rest
      else if (c =? 95)%N then
             if seen then digits acc false rest else None
           else None
  end.

(** An ASCII string read as an integer: surrounding white space is
    dropped, then an optional sign, then the digits. *)
Definition parse (s : pystr) : result Z :=
  let parsed :=
    match strip s with
    | 43%N :: rest => digits 0 false rest
    | 45%N :: rest => Z.opp <$> digits 0 false rest
    | body => digits 0 false body
    end in
  match parsed with
  | Some n => Ok n
  | None => Raise ValueError
  end.

Section Tables.

Context {tables : Unicode}.

Fixpoint skip_ignorable (s : pystr) : pystr :=
  match s with
  | [] => []
  | c :: rest => if is_case_ignorable c then skip_ignorable rest else s
  end.

(** The capital sigma at a position is in final position when the nearest
    character before it that is not case-ignorable is cased, and the
    nearest such character after it, if any, is not. [before] is the text
    before the position, nearest character first. *)
Definition final_sigma (before after : pystr) : bool :=
  match skip_ignorable before with
  | [] => false
  | c :: _ =>
      is_cased c &&
      match skip_ignorable after with
      | [] => true
      | c' :: _ => negb (is_cased c')
      end
  end.

(** The lower case of the character [c] between [before] and [after]. *)
Definition lower_at (before : pystr) (c : N) (after : pystr) : pystr :=
  if (c =? CAPITAL_SIGMA)%N
  then [if final_sigma before after then FINAL_SIGMA else SMALL_SIGMA]
  else to_lower_full c.

Fixpoint lower_from (before s : pystr) : pystr :=
  match s with
  | [] => []
  | c :: rest => lower_at before c rest ++ lower_from (c :: before) rest
  end.

(** [s.lower()] *)
Definition lower (s : pystr) : pystr := lower_from [] s.

(** A string that is not ASCII, as [int()] first rewrites it: white space
    becomes a space, a decimal digit its ASCII digit, and the first other
    character above the ASCII range ends the string with a question
    mark. *)
Fixpoint to_ascii (s : pystr) : pystr :=
  match s with
  | [] => []
  | c :: rest =>
      if (c <? 127)%N then c :: to_ascii rest
      else if is_space c then 32%N :: to_ascii rest
      else match to_decimal c with
           | Some d => (48 + d)%N :: to_ascii rest
           | None => [63%N]
           end
  end.

(** [int(s)] for a string; anything that is no integer literal is a
    [ValueError]. *)
Definition int (s : pystr) : result Z :=
  if forallb (fun c => (c <? 128)%N) s then parse s else parse (to_ascii s).

End Tables.

End Py.

(** ** Dictionaries *)

(** The two JSON dictionaries: string keys, string values. *)
Definition pydict : Type := list (pystr * pystr).

(** [d[key]] *)
Fixpoint dict_getitem (d : pydict) (key : pystr) : result pystr :=
  match d with
  | [] => Raise KeyError
  | (k, v) :: rest => if decide (k = key) then Ok v else dict_getitem rest key
  end.

Definition keys (d : pydict) : list pystr := d.*1.
Definition dict_values (d : pydict) : list pystr := d.*2.

(** ** numpy *)

Module Np.

(** An element of the arrays of [sparse_tensor_to_str]: a fixed-width
    unicode string ([np.str_]), or the [float64] number 1.0, the fill value
    of [np.ones] when the array of values is empty (its dtype is then
    [float64]). *)
Inductive scalar : Type :=
| Str (s : pystr)
| FloatOne.

(** What [int_to_char] can be given: a Python [int] or an array scalar. *)
Inductive number : Type :=
| Int (n : Z)
| Scalar (x : scalar).

(** Fixed-width unicode arrays pad with NUL, so an element read back has
    lost its trailing NUL characters. *)
Fixpoint lstrip_nul (s : pystr) : pystr :=
  match s with
  | 0%N :: rest => lstrip_nul rest
  | _ => s
  end.

Definition rstrip_nul (s : pystr) : pystr := reverse (lstrip_nul (reverse s)).

(** [np.array(strings)], as the list of the elements read back. *)
Definition array (l : list pystr) : list scalar :=
  (fun s => Str (rstrip_nul s)) <$> l.

(** The element [np.ones(_, dtype=values.dtype)] is filled with. *)
Definition one (vals : list scalar) : scalar :=
  match vals with
  | [] => FloatOne
  | _ :: _ => Str (lit "1")
  end.

(** [np.ones((rows, cols), dtype)]: negative dimensions are refused. *)
Definition ones (shape : Z * Z) (fill : scalar) : result (list (list scalar)) :=
  let '(rows, cols) := shape in
  if (rows <? 0) || (cols <? 0) then Raise ValueError
  else Ok (replicate (Z.to_nat rows) (replicate (Z.to_nat cols) fill)).

(** The cell an index denotes along an axis of length [n]: a negative index
    counts from the end. *)
Definition wrap (n i : Z) : Z := if i <? 0 then i + n else i.

Definition in_range (n i : Z) : bool := (- n <=? i) && (i <? n).

Definition axis_index (n i : Z) : result nat :=
  if in_range n i then Ok (Z.to_nat (wrap n i)) else Raise IndexError.

(** [a[r, c] = v] on an array of shape [(rows, cols)]. *)
Definition setitem (shape : Z * Z) (a : list (list scalar)) (r c : Z) (v : scalar)
  : result (list (list scalar)) :=
  ri ← axis_index shape.1 r;
  ci ← axis_index shape.2 c;
  row ← Py.getitem a ri;
  Ok (<[ri := <[ci := v]> row]> a).

End Np.

(** ** FeatureIO *)

(** The instance state: [self.__char_dict] and [self.__ord_map]. *)
Record FeatureIO : Type := {
  char_dict : pydict;
  ord_map : pydict
}.

(** [tf.SparseTensor]: indices, values, dense shape. *)
Record SparseTensor : Type := {
  indices : list (Z * Z);
  values : list Z;
  dense_shape : Z * Z
}.

(** The character [int_to_char] returns for the fill value. *)
Definition NUL : pystr := [0%N].

Section Codec.

Context {tables : Unicode}.

Variable self : FeatureIO.

(** The loop of [char_to_int] over [self.__ord_map.items()]. *)
Fixpoint char_to_int_scan (items : pydict) (temp : pystr) : result Z :=
  match items with
  | [] => Raise KeyError
  | (k, v) :: rest =>
      if decide (v = temp) then Py.int k else char_to_int_scan rest temp
  end.

Definition char_to_int (char : pystr) : result Z :=
  temp ← Py.ord (Py.lower char);
  char_to_int_scan (ord_map self) (Py.str temp).

Definition int_to_char (number : Np.number) : result pystr :=
  match number with
  | Np.Int n =>
      if n =? 1 then Ok NUL else dict_getitem (char_dict self) (Py.str n)
  | Np.Scalar (Np.Str s) =>
      if decide (s = lit "1") then Ok NUL else dict_getitem (char_dict self) s
  | Np.Scalar Np.FloatOne => Ok NUL
  end.

(** [[self.char_to_int(char) for char in label]] *)
Fixpoint encode_label (label : pystr) : result (list Z) :=
  match label with
  | [] => Ok []
  | char :: rest =>
      n ← char_to_int [char];
      ns ← encode_label rest;
      Ok (n :: ns)
  end.

Fixpoint encode_labels (labels : list pystr) : result (list (list Z) * list Z) :=
  match labels with
  | [] => Ok ([], [])
  | label :: rest =>
      encode_label ← encode_label label;
      '(encoded_labels, lengths) ← encode_labels rest;
      Ok (encode_label :: encoded_labels,
          Z.of_nat (length label) :: lengths)
  end.

(** Line 138: the values translated through [ord_map], as an array. *)
Definition translate (vals : list Z) : result (list Np.scalar) :=
  Np.array <$> mapM (fun tmp => dict_getitem (ord_map self) (Py.str tmp)) vals.

(** Lines 144-145: the loop that writes the values into the grid; [i] is the
    position [enumerate] has reached. *)
Fixpoint fill (shape : Z * Z) (vals : list Np.scalar) (i : nat)
    (idx : list (Z * Z)) (number_lists : list (list Np.scalar))
  : result (list (list Np.scalar)) :=
  match idx with
  | [] => Ok number_lists
  | index :: rest =>
      v ← Py.getitem vals i;
      number_lists ← Np.setitem shape number_lists index.1 index.2 v;
      fill shape vals (S i) rest number_lists
  end.

(** Lines 135-145: the grid after the loop. *)
Definition number_lists (sparse_tensor : SparseTensor)
  : result (list (list Np.scalar)) :=
  vals ← translate (values sparse_tensor);
  ones ← Np.ones (dense_shape sparse_tensor) (Np.one vals);
  fill (dense_shape sparse_tensor) vals 0 (indices sparse_tensor) ones.

(** Lines 146-148: every cell through [int_to_char]. *)
Definition str_lists (grid : list (list Np.scalar)) : result (list (list pystr)) :=
  mapM (mapM (fun val => int_to_char (Np.Scalar val))) grid.

(** Line 152: the characters of a row joined, the NUL markers left out. *)
Definition join_row (str_list : list pystr) : pystr :=
  Py.join (filter (fun c => c ≠ NUL) str_list).

Definition sparse_tensor_to_str (sparse_tensor : SparseTensor) : result (list pystr) :=
  grid ← number_lists sparse_tensor;
  strs ← str_lists grid;
  Ok (map join_row strs).

End Codec.

(** ** The feature wrappers *)

(** [tf.train.Feature], for the two kinds [write_features] builds. *)
Inductive Feature : Type :=
| Int64List (value : list Z)
| BytesList (value : list (list byte)).

(** The integer fits an [int64] field of a record. *)
Definition int64 (n : Z) : Prop := - 2 ^ 63 ≤ n < 2 ^ 63.

(** [tf.train.Int64List(value=value)]: an integer out of range is
    refused. *)
Definition int64_list (value : list Z) : result Feature :=
  if decide (Forall int64 value) then Ok (Int64List value) else Raise ValueError.

(** [int64_feature] on a Python [int] or a list of them (no element takes
    the conversion branch). *)
Definition int64_feature (value : Z + list Z) : result Feature :=
  int64_list (match value with inl v => [v] | inr l => l end).

Definition byte_of (n : N) : byte := byte_of_ascii (ascii_of_N n).

(** [c.encode('utf-8')] for a code point: one to four bytes; a surrogate
    is refused. *)
Definition utf8_char (c : N) : result (list byte) :=
  if (c <? 0x80)%N then Ok [byte_of c]
  else if (c <? 0x800)%N then
    Ok [byte_of (0xC0 + c / 64); byte_of (0x80 + c mod 64)]
  else if Py.between 0xD800 0xDFFF c then Raise UnicodeEncodeError
  else if (c <? 0x10000)%N then
    Ok [byte_of (0xE0 + c / 4096); byte_of (0x80 + (c / 64) mod 64);
        byte_of (0x80 + c mod 64)]
  else if (c <? 0x110000)%N then
    Ok [byte_of (0xF0 + c / 262144); byte_of (0x80 + (c / 4096) mod 64);
        byte_of (0x80 + (c / 64) mod 64); byte_of (0x80 + c mod 64)]
  else Raise UnicodeEncodeError.

Fixpoint utf8 (s : pystr) : result (list byte) :=
  match s with
  | [] => Ok []
  | c :: rest =>
      bs ← utf8_char c;
      bs' ← utf8 rest;
      Ok (bs ++ bs')
  end.

(** [bytes_feature] on [bytes] or on a [str]. *)
Definition bytes_feature (value : list byte + pystr) : result Feature :=
  match value with
  | inl b => Ok (BytesList [b])
  | inr s => b ← utf8 s; Ok (BytesList [b])
  end.

(** The wrappers on any argument. *)
Module Features.

(** An element handed to [int64_feature]: an instance of [int], or some
    other object ([np.int64], [float], [str], ...). *)
Inductive elem (other : Type) : Type :=
| IsInt (n : Z)
| NotInt (x : other).

Arguments IsInt {other} n.
Arguments NotInt {other} x.

(** What [bytes_feature] is given: [bytes], a [str], or a list of [str]. *)
Inductive text : Type :=
| Bytes (b : list byte)
| Str (s : pystr)
| StrList (l : list pystr).

Section Int64.

Variable other : Type.

(** [int(float(val))] on the objects that are no [int]. *)
Variable int_float : other → result Z.

(** The loop of [int64_feature]: the flag [is_int] and the list
    [value_tmp] after it. *)
Fixpoint convert (value : list (elem other)) (is_int : bool) (value_tmp : list Z)
  : result (bool * list Z) :=
  match value with
  | [] => Ok (is_int, value_tmp)
  | IsInt _ :: rest => convert rest is_int value_tmp
  | NotInt val :: rest =>
      n ← int_float val;
      convert rest false (value_tmp ++ [n])
  end.

(** The integers among the elements, in order. *)
Definition ints (value : list (elem other)) : list Z :=
  omap (fun val => match val with IsInt n => Some n | NotInt _ => None end) value.

(** The other objects among the elements, in order. *)
Definition others (value : list (elem other)) : list other :=
  omap (fun val => match val with IsInt _ => None | NotInt x => Some x end) value.

Definition int64_feature (value : elem other + list (elem other)) : result Feature :=
  let value := match value with inl v => [v] | inr l => l end in
  match convert value true [] with
  | Ok (is_int, value_tmp) =>
      int64_list (if is_int : bool then ints value else value_tmp)
  | Raise e => Raise e
  end.

End Int64.

Definition bytes_feature (value : text) : result Feature :=
  match value with
  | Bytes b => Ok (BytesList [b])
  | Str s => b ← utf8 s; Ok (BytesList [b])
  | StrList l => BytesList <$> mapM utf8 l
  end.

End Features.

(** [float_feature]. Floating-point numbers are carried, not computed
    with: [float] is their type, [float_of] is [float(val)] on the objects
    that are no [int], and [of_int] is the number an [int] becomes in a
    [FloatList]. The feature is given as the list it holds. *)
Module Floats.

Section Float.

Variables float other : Type.
Variable float_of : other → result float.
Variable of_int : Z → float.

(** The loop of [float_feature]: the flag [is_float] and the list
    [value_tmp] after it. The test is on [int], as in the source. *)
Fixpoint convert (value : list (Features.elem other)) (is_float : bool)
    (value_tmp : list float) : result (bool * list float) :=
  match value with
  | [] => Ok (is_float, value_tmp)
  | Features.IsInt _ :: rest => convert rest is_float value_tmp
  | Features.NotInt val :: rest =>
      x ← float_of val;
      convert rest false (value_tmp ++ [x])
  end.

Definition float_feature (value : Features.elem other + list (Features.elem other))
  : result (list float) :=
  let value := match value with inl v => [v] | inr l => l end in
  match convert value true [] with
  | Ok (is_float, value_tmp) =>
      Ok (if is_float : bool then of_int <$> Features.ints other value else value_tmp)
  | Raise e => Raise e
  end.

End Float.

End Floats.

(** ** TextFeatureWriter *)

(** [tf.train.Example] with the four features of a record. *)
Record Example : Type := {
  ex_labels : Feature;
  ex_images : Feature;
  ex_imagenames : Feature;
  ex_lengths : Feature
}.

(** What [write_features] acts on: the file system, the record writer and
    the standard output, in a state of type [W]. Each action gives the
    state after it and returns or raises; what it does is left open, but
    for the one fact that [os.makedirs] refuses the empty name. The status
    line is given by what it is formatted from. *)
Class Storage (W : Type) : Type := {
  (** [os.makedirs(name, exist_ok=True)] *)
  makedirs : pystr → W → W * result unit;
  (** [tf.python_io.TFRecordWriter(path)] *)
  open_writer : pystr → W → W * result unit;
  (** [writer.write(example.SerializeToString())] *)
  write_record : pystr → Example → W → W * result unit;
  (** [writer.close()], as leaving the [with] block calls it *)
  close_writer : pystr → W → W * result unit;
  (** the [print] of the status line after record [index] *)
  print_status : nat → list (list byte) → list pystr → W → W * result unit;
  (** the last [print] *)
  print_newline : W → W * result unit;
  makedirs_empty : ∀ w, makedirs [] w = (w, Raise FileNotFoundError)
}.

Fixpoint lstrip_sep (s : pystr) : pystr :=
  match s with
  | 47%N :: rest => lstrip_sep rest
  | _ => s
  end.

(** What is left of the reversed path from its first separator on. *)
Fixpoint from_sep (s : pystr) : pystr :=
  match s with
  | [] => []
  | c :: rest => if (c =? 47)%N then s else from_sep rest
  end.

(** [os.path.split(p)[0]]: the path up to its last separator, without the
    trailing separators unless it consists of separators only. *)
Definition split_head (p : pystr) : pystr :=
  let head := from_sep (reverse p) in
  match lstrip_sep head with
  | [] => reverse head
  | stripped => reverse stripped
  end.

(** The features of the record at position [index], in the order the
    source builds them. *)
Definition make_example (labels : list (list Z)) (lengths : list Z)
    (imagenames : list pystr) (index : nat) (image : list byte)
  : result Example :=
  label ← Py.getitem labels index;
  labels_feature ← int64_feature (inr label);
  images_feature ← bytes_feature (inl image);
  name ← Py.getitem imagenames index;
  imagenames_feature ← bytes_feature (inr name);
  len ← Py.getitem lengths index;
  lengths_feature ← int64_feature (inl len);
  Ok {| ex_labels := labels_feature;
        ex_images := images_feature;
        ex_imagenames := imagenames_feature;
        ex_lengths := lengths_feature |}.

Section Writer.

Context {tables : Unicode}.
Context {W : Type} {storage : Storage W}.

(** The loop over [enumerate(images)], from position [index] on; [all] is
    the whole list of images. *)
Fixpoint write_loop (tfrecords_path : pystr) (labels : list (list Z))
    (lengths : list Z) (imagenames : list pystr) (all : list (list byte))
    (index : nat) (images : list (list byte)) (w : W) : W * result unit :=
  match images with
  | [] => (w, Ok tt)
  | image :: rest =>
      match make_example labels lengths imagenames index image with
      | Raise e => (w, Raise e)
      | Ok example =>
          match write_record tfrecords_path example w with
          | (w, Raise e) => (w, Raise e)
          | (w, Ok _) =>
              match print_status index all imagenames w with
              | (w, Raise e) => (w, Raise e)
              | (w, Ok _) =>
                  write_loop tfrecords_path labels lengths imagenames all
                    (S index) rest w
              end
          end
      end
  end.

(** [with tf.python_io.TFRecordWriter(path) as writer: body]: the writer
    is opened, and closed when the body has returned or raised; an
    exception of the closing takes the place of one of the body. *)
Definition with_writer (path : pystr) (body : W → W * result unit) (w : W)
  : W * result unit :=
  match open_writer path w with
  | (w, Raise e) => (w, Raise e)
  | (w, Ok _) =>
      match body w with
      | (w, Raise e) =>
          match close_writer path w with
          | (w, Raise e') => (w, Raise e')
          | (w, Ok _) => (w, Raise e)
          end
      | (w, Ok _) => close_writer path w
      end
  end.

(** [write_features]: the state afterwards and the outcome of the call. *)
Definition write_features (self : FeatureIO) (tfrecords_path : pystr)
    (labels : list pystr) (images : list (list byte)) (imagenames : list pystr)
    (w : W) : W * result unit :=
  if negb ((length labels =? length images)%nat
           && (length images =? length imagenames)%nat)
  then (w, Raise AssertionError)
  else
    match imagenames with
    | [] => (w, Raise ValueError)
    | _ :: _ =>
        match encode_labels self labels with
        | Raise e => (w, Raise e)
        | Ok (encoded, lengths) =>
            match makedirs (split_head tfrecords_path) w with
            | (w, Raise e) => (w, Raise e)
            | (w, Ok _) =>
                match with_writer tfrecords_path
                        (write_loop tfrecords_path encoded lengths imagenames
                           images 0 images) w with
                | (w, Raise e) => (w, Raise e)
                | (w, Ok _) => print_newline w
                end
            end
        end
    end.

End Writer.

(** ** An excerpt of the character database *)

(** The tables on U+0000..U+00FF, on the Greek letters U+0391..U+03C9, on
    U+0130 (capital I with dot above) and on U+0307 (combining dot above),
    as Unicode has them. The other code points are given no case, which is
    not what the database says of them: the excerpt serves the concrete
    inputs of this file, which stay within those ranges. *)
Module UCD.

(** The capital letters of the excerpt whose lower case is 32 further. *)
Definition capital (c : N) : bool :=
  Py.between 65 90 c || Py.between 192 214 c || Py.between 216 222 c
  || Py.between 0x391 0x3A1 c || Py.between 0x3A3 0x3AB c.

Definition lower_full (c : N) : pystr :=
  if (c =? 0x130)%N then [0x69; 0x307]%N
  else if capital c then [(c + 32)%N]
  else [c].

Definition cased (c : N) : bool :=
  Py.between 65 90 c || Py.between 97 122 c
  || (c =? 170)%N || (c =? 181)%N || (c =? 186)%N
  || Py.between 192 214 c || Py.between 216 246 c || Py.between 248 255 c
  || (c =? 0x130)%N
  || Py.between 0x391 0x3A1 c || Py.between 0x3A3 0x3C9 c.

Definition case_ignorable (c : N) : bool :=
  bool_decide (c ∈ [39; 46; 58; 94; 96; 168; 173; 175; 180; 183; 184; 0x307]%N).

Definition space (c : N) : bool :=
  Py.between 9 13 c || Py.between 28 32 c || (c =? 133)%N || (c =? 160)%N.

Definition decimal (c : N) : option N :=
  if Py.between 48 57 c then Some (c - 48)%N else None.

Lemma lower_full_stable (c c' : N) :
  (if (c =? CAPITAL_SIGMA)%N then [SMALL_SIGMA] else lower_full c) = [c'] →
  (if (c' =? CAPITAL_SIGMA)%N then [SMALL_SIGMA] else lower_full c') = [c'].
Proof.
  unfold lower_full, capital, Py.between, CAPITAL_SIGMA, SMALL_SIGMA.
  destruct (N.eqb_spec c 0x3A3) as [->|Hsigma].
  - intros [= <-]. reflexivity.
  - destruct (N.eqb_spec c 0x130) as [->|Hdot]; [discriminate|].
    destruct (_ || _) eqn:Hcap; intros [= <-].
    + assert (Hlow : (97 ≤ c + 32 ≤ 122 ∨ 224 ≤ c + 32 ≤ 254
                      ∨ 0x3B1 ≤ c + 32 ≤ 0x3CB)%N) by lia.
      clear Hcap.
      destruct (N.eqb_spec (c + 32) 0x3A3); [lia|].
      destruct (N.eqb_spec (c + 32) 0x130); [lia|].
      destruct (_ || _) eqn:Hcap; [lia | reflexivity].
    + destruct (N.eqb_spec c 0x3A3); [contradiction|].
      destruct (N.eqb_spec c 0x130); [contradiction|].
      now rewrite Hcap.
Qed.

Definition excerpt : Unicode :=
  {| to_lower_full := lower_full;
     is_cased := cased;
     is_case_ignorable := case_ignorable;
     is_space := space;
     to_decimal := decimal;
     lower_stable := lower_full_stable |}.

End UCD.

(** ** A storage that keeps a journal *)

(** What [write_features] asks of the storage. *)
Inductive action : Type :=
| Makedirs (name : pystr)
| Open (path : pystr)
| Write (path : pystr) (example : Example)
| Close (path : pystr)
| Status (index : nat)
| Newline.

(** The storage in which every action succeeds and is entered in a journal,
    but [os.makedirs] on the empty name. It serves to run [write_features]
    on concrete inputs. *)
Definition journal : Storage (list action) :=
  {| makedirs name w :=
       match name with
       | [] => (w, Raise FileNotFoundError)
       | _ :: _ => (w ++ [Makedirs name], Ok tt)
       end;
     open_writer path w := (w ++ [Open path], Ok tt);
     write_record path example w := (w ++ [Write path example], Ok tt);
     close_writer path w := (w ++ [Close path], Ok tt);
     print_status index _ _ w := (w ++ [Status index], Ok tt);
     print_newline w := (w ++ [Newline], Ok tt);
     makedirs_empty w := eq_refl |}.

(** ** Concrete dictionaries *)

(** The dictionaries of the worked scenario: index 0 is a (ordinal 97),
    index 2 is b (ordinal 98); [char_dict] is keyed by the ordinal, as
    [sparse_tensor_to_str] uses it. *)
Definition ab_dicts : FeatureIO :=
  {| char_dict := [(lit "97", lit "a"); (lit "98", lit "b")];
     ord_map := [(lit "0", lit "97"); (lit "2", lit "98")] |}.

(** The sparse tensor of the worked scenario: one row, two cells. *)
Definition ab_tensor : SparseTensor :=
  {| indices := [(0, 0); (0, 1)]; values := [0; 2]; dense_shape := (1, 2) |}.

(** Dictionaries in which U+0000 is a character like another: index 0 has
    ordinal 0. *)
Definition nul_dicts : FeatureIO :=
  {| char_dict := [(lit "0", NUL)];
     ord_map := [(lit "0", lit "0")] |}.

(** Dictionaries in which U+0001 is a character like another: index 0 has
    ordinal 1. *)
Definition soh_dicts : FeatureIO :=
  {| char_dict := [(lit "1", [1%N])];
     ord_map := [(lit "0", lit "1")] |}.

(** Dictionaries of Greek letters: omicron (index 0, ordinal 959), delta
    (1, 948), sigma (2, 963), final sigma (3, 962), alpha (4, 945). *)
Definition greek_dicts : FeatureIO :=
  {| char_dict := [(lit "959", [959%N]); (lit "948", [948%N]);
                   (lit "963", [963%N]); (lit "962", [962%N]);
                   (lit "945", [945%N])];
     ord_map := [(lit "0", lit "959"); (lit "1", lit "948");
                 (lit "2", lit "963"); (lit "3", lit "962");
                 (lit "4", lit "945")] |}.

(** Dictionaries that hold the capital I with dot above (index 0, ordinal
    304) and the two characters of its lower case, i (1, 105) and the
    combining dot above (2, 775). *)
Definition dotted_dicts : FeatureIO :=
  {| char_dict := [(lit "304", [304%N]); (lit "105", [105%N]);
                   (lit "775", [775%N])];
     ord_map := [(lit "0", lit "304"); (lit "1", lit "105");
                 (lit "2", lit "775")] |}.

(** ** Vocabulary of the statements *)

(** The cell of a grid at a row and a column. *)
Definition cell {A} (grid : list (list A)) (r c : nat) : option A :=
  row ← grid !! r; row !! c.

(** A grid of [rows] rows of [cols] cells each. *)
Definition has_shape {A} (rows cols : nat) (grid : list (list A)) : Prop :=
  length grid = rows ∧ Forall (fun row => length row = cols) grid.

(** The index pair lies within [0, rows) x [0, cols). *)
Definition in_bounds (shape index : Z * Z) : Prop :=
  (0 ≤ index.1 < shape.1) ∧ (0 ≤ index.2 < shape.2).

(** The index pair lies within [-rows, rows) x [-cols, cols). *)
Definition addressable (shape index : Z * Z) : Prop :=
  (- shape.1 ≤ index.1 < shape.1) ∧ (- shape.2 ≤ index.2 < shape.2).

(** The cell that an index pair within [-rows, rows) x [-cols, cols) stands
    for when a negative index counts from the end of its axis: [-1] is the
    last row or column. *)
Definition address (shape index : Z * Z) : Z * Z :=
  (index.1 mod shape.1, index.2 mod shape.2).

(** The row and the column of that cell, as positions. *)
Definition row_of (shape index : Z * Z) : nat := Z.to_nat (index.1 mod shape.1).
Definition col_of (shape index : Z * Z) : nat := Z.to_nat (index.2 mod shape.2).

(** How an element of the translated array (line 138) relates to the value
    it comes from. *)
Definition translated (self : FeatureIO) (tmp : Z) (v : Np.scalar) : Prop :=
  ∃ ordinal, dict_getitem (ord_map self) (Py.str tmp) = Ok ordinal
             ∧ v = Np.Str (Np.rstrip_nul ordinal).

(** Every value of the sparse tensor is a key of [ord_map]. *)
Definition known_values (self : FeatureIO) (vals : list Z) : Prop :=
  Forall (fun tmp => is_ok (dict_getitem (ord_map self) (Py.str tmp)) = true) vals.

(** Every ordinal of [ord_map], read back from the array of values, is
    accepted by [int_to_char]: it is ['1'] or a key of [char_dict]. *)
Definition decodable (self : FeatureIO) : Prop :=
  Forall (fun v => is_ok (int_to_char self (Np.Scalar (Np.Str (Np.rstrip_nul v)))) = true)
         (dict_values (ord_map self)).

(** Every value of the dictionary is a string of at most one character. *)
Definition single_chars (d : pydict) : Prop :=
  Forall (fun v : pystr => (length v ≤ 1)%nat) (dict_values d).

(** The ordinal of the character is a value of [ord_map]. *)
Definition in_ord_map (self : FeatureIO) (c : N) : Prop :=
  Py.str (Z.of_N c) ∈ dict_values (ord_map self).

(** [char_dict] maps the ordinal of the character to the character. *)
Definition in_char_dict (self : FeatureIO) (c : N) : Prop :=
  dict_getitem (char_dict self) (Py.str (Z.of_N c)) = Ok [c].

(** The character is neither U+0000, the marker the decoder drops, nor
    U+0001, whose ordinal is the fill value of the grid. *)
Definition printable (c : N) : Prop := c ≠ 0%N ∧ c ≠ 1%N.

(** An encoded label as a sparse tensor of one row: the value at position
    [j] sits at [(0, j)]. *)
Definition label_tensor (code : list Z) : SparseTensor :=
  {| indices := (fun j => (0, Z.of_nat j)) <$> seq 0 (length code);
     values := code;
     dense_shape := (1, Z.of_nat (length code)) |}.

(** The sparse tensor with each index pair replaced by the cell it stands
    for. *)
Definition addressed (st : SparseTensor) : SparseTensor :=
  {| indices := address (dense_shape st) <$> indices st;
     values := values st;
     dense_shape := dense_shape st |}.

(** Every key of the dictionary reads as an integer. *)
Definition integer_keys {tables : Unicode} (d : pydict) : Prop :=
  Forall (fun k => is_ok (Py.int k) = true) (keys d).

(** The key is the decimal writing of an integer: [str(int(k)) == k]. *)
Definition canonical {tables : Unicode} (k : pystr) : bool :=
  match Py.int k with
  | Ok n => bool_decide (Py.str n = k)
  | Raise _ => false
  end.

(** The lower case of the character on its own is one character. *)
Definition single_lower {tables : Unicode} (c : N) : Prop := length (Py.lower [c]) = 1%nat.

(** The label lower-cased character by character, each on its own:
    [''.join(char.lower() for char in label)]. *)
Definition lower_each {tables : Unicode} (label : pystr) : pystr :=
  Py.join ((fun c => Py.lower [c]) <$> label).

(** The lower case of the character is one character whose ordinal is a
    value of [ord_map]. *)
Definition encodable {tables : Unicode} (self : FeatureIO) (c : N) : Prop :=
  match Py.lower [c] with
  | [c'] => in_ord_map self c'
  | _ => False
  end.

(** A label the codec takes there and back: each of its characters has one
    character as lower case, which has its ordinal among the values of
    [ord_map], is mapped from that ordinal to itself by [char_dict], and is
    neither U+0000 nor U+0001. *)
Definition legible {tables : Unicode} (self : FeatureIO) (label : pystr) : Prop :=
  Forall single_lower label
  ∧ Forall (in_ord_map self) (lower_each label)
  ∧ Forall (in_char_dict self) (lower_each label)
  ∧ Forall printable (lower_each label).

(** The loop of lines 144-145 on the entries themselves, each an index
    pair with the array element written at it. *)
Fixpoint write_entries (shape : Z * Z) (entries : list ((Z * Z) * Np.scalar))
    (number_lists : list (list Np.scalar)) : result (list (list Np.scalar)) :=
  match entries with
  | [] => Ok number_lists
  | (index, v) :: rest =>
      number_lists ← Np.setitem shape number_lists index.1 index.2 v;
      write_entries shape rest number_lists
  end.

(** The array element of a value that is a key of [ord_map]. *)
Definition element (self : FeatureIO) (tmp : Z) : Np.scalar :=
  match dict_getitem (ord_map self) (Py.str tmp) with
  | Ok ordinal => Np.Str (Np.rstrip_nul ordinal)
  | Raise _ => Np.FloatOne
  end.

(** The index pairs of a batch of encoded labels, label [r + k] on row
    [r + k], its indices from column 0 on. *)
Fixpoint batch_indices (r : nat) (codes : list (list Z)) : list (Z * Z) :=
  match codes with
  | [] => []
  | code :: rest =>
      ((fun c => (Z.of_nat r, Z.of_nat c)) <$> seq 0 (length code))
      ++ batch_indices (S r) rest
  end.

(** A batch of encoded labels as a sparse tensor of [cols] columns: one
    row per label, its indices from column 0 on. *)
Definition batch_tensor (codes : list (list Z)) (cols : nat) : SparseTensor :=
  {| indices := batch_indices 0 codes;
     values := concat codes;
     dense_shape := (Z.of_nat (length codes), Z.of_nat cols) |}.

(** The entries of rows of array elements, the first row being row [r]. *)
Fixpoint batch_entries (r : nat) (rows : list (list Np.scalar))
  : list ((Z * Z) * Np.scalar) :=
  match rows with
  | [] => []
  | row :: rest =>
      zip ((fun c => (Z.of_nat r, Z.of_nat c)) <$> seq 0 (length row)) row
      ++ batch_entries (S r) rest
  end.

(** The record of an encoded label, an image, a name in UTF-8 and a
    length. *)
Definition record_of (code : list Z) (image name : list byte) (len : Z) : Example :=
  {| ex_labels := Int64List code;
     ex_images := BytesList [image];
     ex_imagenames := BytesList [name];
     ex_lengths := Int64List [len] |}.

Section Stored.

Context {W : Type} {storage : Storage W}.

(** Records written one after the other from position [index] on, each
    followed by its status line, up to the first action that raises. *)
Fixpoint write_records (tfrecords_path : pystr) (imagenames : list pystr)
    (all : list (list byte)) (index : nat) (records : list Example) (w : W)
  : W * result unit :=
  match records with
  | [] => (w, Ok tt)
  | example :: rest =>
      match write_record tfrecords_path example w with
      | (w, Raise e) => (w, Raise e)
      | (w, Ok _) =>
          match print_status index all imagenames w with
          | (w, Raise e) => (w, Raise e)
          | (w, Ok _) => write_records tfrecords_path imagenames all (S index) rest w
          end
      end
  end.

(** Given records stored under a path: the directory is made, the records
    are written within the writer of the path, and the last line is
    printed; the first action that raises ends the call, the writer being
    closed if it was open. *)
Definition stored (tfrecords_path : pystr) (imagenames : list pystr)
    (images : list (list byte)) (records : list Example) (w : W) : W * result unit :=
  match makedirs (split_head tfrecords_path) w with
  | (w, Raise e) => (w, Raise e)
  | (w, Ok _) =>
      match with_writer tfrecords_path
              (write_records tfrecords_path imagenames images 0 records) w with
      | (w, Raise e) => (w, Raise e)
      | (w, Ok _) => print_newline w
      end
  end.

End Stored.

(** * Properties *)

(** ** The worked scenario *)

Example encode_ab :
  encode_labels (tables := UCD.excerpt) ab_dicts [lit "ab"] = Ok ([[0; 2]], [2]).
Proof. reflexivity. Qed.

Example decode_ab : sparse_tensor_to_str ab_dicts ab_tensor = Ok [lit "ab"].
Proof. reflexivity. Qed.

Example decode_empty_row :
  sparse_tensor_to_str ab_dicts
    {| indices := []; values := []; dense_shape := (1, 3) |}
  = Ok [[]].
Proof. reflexivity. Qed.

(** ** The result monad *)

Lemma bind_ok {A B} (r : result A) (f : A → result B) (b : B) :
  r ≫= f = Ok b ↔ ∃ a, r = Ok a ∧ f a = Ok b.
Proof.
  destruct r as [a|e]; simpl; split.
  - intros H. exists a. auto.
  - intros (a' & Ha & Hf). injection Ha as ->. exact Hf.
  - discriminate.
  - intros (a' & Ha & _). discriminate.
Qed.

Lemma bind_Ok {A B} (a : A) (f : A → result B) : Ok a ≫= f = f a.
Proof. reflexivity. Qed.

Lemma bind_Raise {A B} (e : exn) (f : A → result B) : Raise e ≫= f = Raise e.
Proof. reflexivity. Qed.

Lemma fmap_ok {A B} (g : A → B) (r : result A) (b : B) :
  g <$> r = Ok b ↔ ∃ a, r = Ok a ∧ b = g a.
Proof.
  destruct r as [a|e]; simpl; split.
  - intros [= <-]. eauto.
  - intros (a' & [= <-] & ->). reflexivity.
  - discriminate.
  - intros (a' & Ha & _). discriminate.
Qed.

Lemma mapM_ok {A B} (f : A → result B) (l : list A) (k : list B) :
  mapM f l = Ok k ↔ Forall2 (fun x y => f x = Ok y) l k.
Proof.
  revert k. induction l as [|x l IH]; intros k; simpl.
  - split.
    + intros [= <-]. constructor.
    + intros H. inversion H. reflexivity.
  - split.
    + intros H. apply bind_ok in H as (y & Hy & H).
      apply bind_ok in H as (k' & Hk' & [= <-]).
      constructor; [exact Hy | apply IH, Hk'].
    + intros H. inversion H as [|? y ? k' Hy Hk']; subst.
      rewrite Hy. simpl. apply IH in Hk'. rewrite Hk'. reflexivity.
Qed.

Lemma mapM_app {A B} (f : A → result B) (l1 l2 : list A) :
  mapM f (l1 ++ l2) =
  (k1 ← mapM f l1; k2 ← mapM f l2; Ok (k1 ++ k2)).
Proof.
  induction l1 as [|x l1 IH]; simpl.
  - destruct (mapM f l2); reflexivity.
  - destruct (f x) as [y|e]; simpl; [|reflexivity].
    rewrite IH. destruct (mapM f l1) as [k1|e]; simpl; [|reflexivity].
    destruct (mapM f l2); reflexivity.
Qed.

Lemma mapM_succeeds {A B} (f : A → result B) (l : list A) :
  Forall (fun x => is_ok (f x) = true) l → is_ok (mapM f l) = true.
Proof.
  induction 1 as [|x l Hx _ IH]; [reflexivity|]. simpl.
  destruct (f x) as [y|]; [|discriminate]. simpl.
  destruct (mapM f l); [reflexivity | discriminate].
Qed.

Lemma mapM_replicate {A B} (f : A → result B) (n : nat) (x : A) (y : B) :
  f x = Ok y → mapM f (replicate n x) = Ok (replicate n y).
Proof.
  intros Hx. induction n as [|n IH]; [reflexivity|].
  simpl. rewrite Hx. simpl. rewrite IH. reflexivity.
Qed.

(** ** Joining a row *)

Lemma join_row_app (l1 l2 : list pystr) :
  join_row (l1 ++ l2) = join_row l1 ++ join_row l2.
Proof. unfold join_row, Py.join. rewrite filter_app. apply concat_app. Qed.

Lemma join_row_nul (l : list pystr) : join_row (NUL :: l) = join_row l.
Proof.
  unfold join_row. rewrite filter_cons. destruct (decide (NUL ≠ NUL)) as [H|_].
  - now contradiction H.
  - reflexivity.
Qed.

Lemma join_row_keep (s : pystr) (l : list pystr) :
  s ≠ NUL → join_row (s :: l) = s ++ join_row l.
Proof.
  intros Hs. unfold join_row. rewrite filter_cons.
  destruct (decide (s ≠ NUL)); [reflexivity | contradiction].
Qed.

Lemma join_row_all_nul (n : nat) : join_row (replicate n NUL) = [].
Proof. induction n as [|n IH]; simpl; [reflexivity | now rewrite join_row_nul]. Qed.

(** ** The sentinel *)

(** C6. Whatever the dictionaries, [int_to_char] maps the integer 1 to the
    NUL marker (the character dictionary is not looked at: even an empty one
    gives the marker), and a marker among the characters of a row adds
    nothing to the string the row is joined into. *)
Theorem int_to_char_one (self : FeatureIO) :
  int_to_char self (Np.Int 1) = Ok NUL
  ∧ int_to_char {| char_dict := []; ord_map := ord_map self |} (Np.Int 1) = Ok NUL
  ∧ ∀ before after : list pystr,
      join_row (before ++ NUL :: after) = join_row (before ++ after).
Proof.
  split; [reflexivity|]. split; [reflexivity|].
  intros before after. rewrite !join_row_app, join_row_nul. reflexivity.
Qed.

(** C10. The string ['1'] is treated as the integer 1: [int_to_char] gives
    the NUL marker for it whatever the character dictionary holds, and a
    cell of the grid holding ['1'] adds nothing to the decoded row: the row
    decodes as it does without that cell. *)
Theorem int_to_char_one_string (self : FeatureIO) :
  let cell_char := fun val => int_to_char self (Np.Scalar val) in
  cell_char (Np.Str (lit "1")) = Ok NUL
  ∧ cell_char (Np.Str (lit "1")) = int_to_char self (Np.Int 1)
  ∧ ∀ left right : list Np.scalar,
      join_row <$> mapM cell_char (left ++ Np.Str (lit "1") :: right)
      = join_row <$> mapM cell_char (left ++ right).
Proof.
  intros cell_char.
  assert (Hone : cell_char (Np.Str (lit "1")) = Ok NUL) by reflexivity.
  split; [exact Hone|]. split; [exact Hone|].
  intros left right. rewrite !mapM_app. cbn [mapM]. rewrite Hone, bind_Ok.
  destruct (mapM cell_char left) as [k1|e]; simpl; [|reflexivity].
  destruct (mapM cell_char right) as [k2|e]; simpl; [|reflexivity].
  now rewrite !join_row_app, join_row_nul.
Qed.

(** ** Characters to indices *)

Lemma parse_raises (s : pystr) (e : exn) : Py.parse s = Raise e → e = ValueError.
Proof.
  unfold Py.parse.
  destruct (match Py.strip s with
            | 43%N :: rest => Py.digits 0 false rest
            | 45%N :: rest => Z.opp <$> Py.digits 0 false rest
            | body => Py.digits 0 false body
            end); intros [=]. congruence.
Qed.

Lemma int_raises {tables : Unicode} (k : pystr) (e : exn) :
  Py.int k = Raise e → e = ValueError.
Proof. unfold Py.int. destruct (forallb _ k); apply parse_raises. Qed.

Lemma scan_miss {tables : Unicode} (items : pydict) (temp : pystr) :
  temp ∉ items.*2 → char_to_int_scan items temp = Raise KeyError.
Proof.
  induction items as [|[k v] items IH]; simpl; intros Hnot; [reflexivity|].
  destruct (decide (v = temp)) as [->|Hne].
  - exfalso. apply Hnot. left.
  - apply IH. intros Hin. apply Hnot. now right.
Qed.

Lemma scan_first {tables : Unicode} (before after : pydict) (k temp : pystr) :
  temp ∉ before.*2 →
  char_to_int_scan (before ++ (k, temp) :: after) temp = Py.int k.
Proof.
  induction before as [|[k' v'] before IH]; simpl; intros Hnot.
  - destruct (decide (temp = temp)); [reflexivity | contradiction].
  - destruct (decide (v' = temp)) as [->|Hne].
    + exfalso. apply Hnot. left.
    + apply IH. intros Hin. apply Hnot. now right.
Qed.

Lemma values_split (items : pydict) (temp : pystr) :
  temp ∈ items.*2 →
  ∃ before k after, items = before ++ (k, temp) :: after ∧ temp ∉ before.*2.
Proof.
  induction items as [|[k v] items IH]; simpl; intros Hin.
  - now apply elem_of_nil in Hin.
  - destruct (decide (v = temp)) as [->|Hne].
    + exists [], k, items. split; [reflexivity|]. apply not_elem_of_nil.
    + apply elem_of_cons in Hin as [Heq|Hin]; [congruence|].
      destruct (IH Hin) as (before & k' & after & -> & Hnot).
      exists ((k, v) :: before), k', after. split; [reflexivity|].
      simpl. intros [Heq|Hin']%elem_of_cons; [congruence | auto].
Qed.

Lemma scan_found {tables : Unicode} (items : pydict) (temp : pystr) :
  temp ∈ items.*2 →
  ∃ k, (k, temp) ∈ items ∧ char_to_int_scan items temp = Py.int k.
Proof.
  intros Hin. destruct (values_split _ _ Hin) as (before & k & after & Heq & Hnot).
  exists k. rewrite Heq. split.
  - apply elem_of_app. right. left.
  - now apply scan_first.
Qed.

Lemma scan_raises {tables : Unicode} (items : pydict) (temp : pystr) (e : exn) :
  char_to_int_scan items temp = Raise e → e = KeyError ∨ e = ValueError.
Proof.
  induction items as [|[k v] items IH]; simpl.
  - intros [= <-]. now left.
  - destruct (decide (v = temp)); [|exact IH].
    intros ->%int_raises. now right.
Qed.

(** [char_to_int] on a string whose lower case is the one character [c]. *)
Lemma char_to_int_single {tables : Unicode} (self : FeatureIO) (char : pystr) (c : N) :
  Py.lower char = [c] →
  char_to_int self char = char_to_int_scan (ord_map self) (Py.str (Z.of_N c)).
Proof. intros Hlow. unfold char_to_int. rewrite Hlow. reflexivity. Qed.

(** [char_to_int] on a string whose lower case is not one character. *)
Lemma char_to_int_several {tables : Unicode} (self : FeatureIO) (char : pystr) :
  length (Py.lower char) ≠ 1%nat → char_to_int self char = Raise TypeError.
Proof.
  intros Hlen. unfold char_to_int.
  destruct (Py.lower char) as [|c [|c' rest]]; [reflexivity | | reflexivity].
  now contradiction Hlen.
Qed.

(** C7, as the code has it. [char_to_int] lower-cases what it is given and
    takes the ordinal of the result. When the lower case is one character,
    it scans [ord_map] for an entry whose value is that ordinal (as a
    decimal string): it raises [KeyError] exactly when no entry has that
    value, and otherwise its result is the key of the first such entry,
    read as an integer. When the lower case is not one character, and only
    then, it raises [TypeError], whatever [ord_map] holds. *)
Theorem char_to_int_lookup {tables : Unicode} (self : FeatureIO) (char : pystr) :
  (∀ c : N, Py.lower char = [c] →
     let temp := Py.str (Z.of_N c) in
     (char_to_int self char = Raise KeyError ↔ temp ∉ dict_values (ord_map self))
     ∧ (∀ before k after,
          ord_map self = before ++ (k, temp) :: after →
          temp ∉ dict_values before →
          char_to_int self char = Py.int k)
     ∧ (∀ n, char_to_int self char = Ok n →
          ∃ k, (k, temp) ∈ ord_map self ∧ Py.int k = Ok n))
  ∧ (char_to_int self char = Raise TypeError ↔ length (Py.lower char) ≠ 1%nat).
Proof.
  split.
  - intros c Hlow temp. rewrite (char_to_int_single self char c Hlow). fold temp.
    unfold dict_values. split; [split|split].
    + intros Hraise Hin. destruct (scan_found _ _ Hin) as (k & _ & Hk).
      rewrite Hk in Hraise. apply int_raises in Hraise. discriminate.
    + apply scan_miss.
    + intros before k after -> Hnot. now apply scan_first.
    + intros n Hn. destruct (decide (temp ∈ (ord_map self).*2)) as [Hin|Hnot].
      * destruct (scan_found _ _ Hin) as (k & Hk & Hscan). exists k.
        split; [exact Hk|]. now rewrite <- Hscan.
      * rewrite (scan_miss _ _ Hnot) in Hn. discriminate.
  - split; [|apply char_to_int_several].
    intros Hraise Hlen.
    destruct (Py.lower char) as [|c [|c' rest]] eqn:Hlow; try discriminate Hlen.
    rewrite (char_to_int_single self char c Hlow) in Hraise.
    apply scan_raises in Hraise as [H|H]; discriminate H.
Qed.

(** C7 as stated fails on the capital I with dot above (U+0130): its lower
    case is two characters, i and the combining dot, so no ordinal is
    computed and the call raises [TypeError], not [KeyError], although
    [ord_map] has an entry for the ordinal of the character and for the
    ordinal of each character of its lower case. *)
Lemma dotted_capital_i_raises :
  let char := [0x130%N] in
  Py.lower (tables := UCD.excerpt) char = [0x69; 0x307]%N
  ∧ Forall (in_ord_map dotted_dicts) (0x130%N :: Py.lower (tables := UCD.excerpt) char)
  ∧ char_to_int (tables := UCD.excerpt) dotted_dicts char = Raise TypeError
  ∧ char_to_int (tables := UCD.excerpt) dotted_dicts char ≠ Raise KeyError
  ∧ is_ok (char_to_int (tables := UCD.excerpt) dotted_dicts char) = false.
Proof.
  simpl. split; [reflexivity|]. split.
  - repeat constructor; apply (bool_decide_unpack _); vm_compute; exact I.
  - split; [reflexivity|]. split; [discriminate | reflexivity].
Qed.

(** ** Case *)

Section Case.

Context {tables : Unicode}.

Lemma lower_one (c : N) :
  Py.lower [c] = if (c =? CAPITAL_SIGMA)%N then [SMALL_SIGMA] else to_lower_full c.
Proof.
  unfold Py.lower. cbn [Py.lower_from]. rewrite app_nil_r.
  unfold Py.lower_at. destruct (c =? CAPITAL_SIGMA)%N; reflexivity.
Qed.

Lemma lower_each_cons (c : N) (label : pystr) :
  lower_each (c :: label) = Py.lower [c] ++ lower_each label.
Proof. reflexivity. Qed.

Lemma single_lower_spec (c : N) : single_lower c ↔ ∃ c', Py.lower [c] = [c'].
Proof.
  unfold single_lower. destruct (Py.lower [c]) as [|c' [|c'' rest]]; split;
    try discriminate; try (intros [? [=]]); eauto.
Qed.

(** The lower case of a character is its own lower case. *)
Lemma lower_lower (c c' : N) : Py.lower [c] = [c'] → Py.lower [c'] = [c'].
Proof. rewrite !lower_one. apply lower_stable. Qed.

Lemma char_to_int_lower (self : FeatureIO) (c c' : N) :
  Py.lower [c] = [c'] → char_to_int self [c'] = char_to_int self [c].
Proof.
  intros Hlow. unfold char_to_int. now rewrite (lower_lower _ _ Hlow), Hlow.
Qed.

Lemma encode_label_lower (self : FeatureIO) (label : pystr) :
  Forall single_lower label →
  encode_label self (lower_each label) = encode_label self label.
Proof.
  induction 1 as [|c label [c' Hc]%single_lower_spec _ IH]; [reflexivity|].
  rewrite lower_each_cons, Hc. cbn [app encode_label].
  now rewrite (char_to_int_lower self c c' Hc), IH.
Qed.

Lemma length_lower_each (label : pystr) :
  Forall single_lower label → length (lower_each label) = length label.
Proof.
  induction 1 as [|c label Hc _ IH]; [reflexivity|].
  rewrite lower_each_cons, length_app, IH. unfold single_lower in Hc.
  rewrite Hc. reflexivity.
Qed.

(** Without a capital sigma, [lower] works character by character. *)
Lemma lower_from_no_sigma (s before : pystr) :
  CAPITAL_SIGMA ∉ s → Py.lower_from before s = lower_each s.
Proof.
  revert before. induction s as [|c s IH]; intros before Hnot; [reflexivity|].
  cbn [Py.lower_from]. rewrite lower_each_cons, lower_one.
  rewrite IH by (intros Hin; apply Hnot; now right).
  unfold Py.lower_at. destruct (N.eqb_spec c CAPITAL_SIGMA) as [->|_]; [|reflexivity].
  exfalso. apply Hnot. left.
Qed.

Lemma lower_no_sigma (s : pystr) : CAPITAL_SIGMA ∉ s → Py.lower s = lower_each s.
Proof. apply lower_from_no_sigma. Qed.

Lemma encode_labels_lower_each (self : FeatureIO) (labels : list pystr) :
  Forall (Forall single_lower) labels →
  encode_labels self (lower_each <$> labels) = encode_labels self labels.
Proof.
  induction 1 as [|label labels Hlabel _ IH]; [reflexivity|].
  rewrite fmap_cons. cbn [encode_labels].
  now rewrite encode_label_lower, length_lower_each, IH.
Qed.

End Case.

(** C9, as the code has it. Encoding does not see case, character by
    character: on labels in which every character has one character as
    lower case, [encode_labels] gives the same outcome (the same index
    sequences and lengths, or the same exception) for the labels and for
    the labels with each character lower-cased on its own. For a label
    without capital sigma that is the lower-cased label, so that the label
    and [label.lower()] are encoded alike. *)
Theorem encode_labels_lower {tables : Unicode} (self : FeatureIO) :
  (∀ labels : list pystr,
     Forall (Forall single_lower) labels →
     encode_labels self (lower_each <$> labels) = encode_labels self labels)
  ∧ (∀ label : pystr,
       CAPITAL_SIGMA ∉ label → Py.lower label = lower_each label)
  ∧ (∀ label : pystr,
       Forall single_lower label → CAPITAL_SIGMA ∉ label →
       encode_labels self [Py.lower label] = encode_labels self [label]).
Proof.
  split; [apply encode_labels_lower_each|]. split; [apply lower_no_sigma|].
  intros label Hsingle Hsigma. rewrite (lower_no_sigma label Hsigma).
  apply (encode_labels_lower_each self [label]). now constructor.
Qed.

#[local] Instance in_ord_map_dec (self : FeatureIO) (c : N) :
  Decision (in_ord_map self c).
Proof. unfold in_ord_map. apply _. Defined.

#[local] Instance printable_dec (c : N) : Decision (printable c).
Proof. unfold printable. apply _. Defined.

#[local] Instance in_char_dict_dec (self : FeatureIO) (c : N) :
  Decision (in_char_dict self c).
Proof.
  unfold in_char_dict.
  destruct (dict_getitem (char_dict self) (Py.str (Z.of_N c))) as [s|e].
  - destruct (decide (s = [c])) as [->|Hne]; [now left | right; congruence].
  - right. discriminate.
Defined.

#[local] Instance single_lower_dec {tables : Unicode} (c : N) :
  Decision (single_lower c).
Proof. unfold single_lower. apply _. Defined.

#[local] Instance encodable_dec {tables : Unicode} (self : FeatureIO) (c : N) :
  Decision (encodable self c).
Proof. unfold encodable. destruct (Py.lower [c]) as [|c' [|c'' rest]]; apply _. Defined.

#[local] Instance legible_dec {tables : Unicode} (self : FeatureIO) (label : pystr) :
  Decision (legible self label).
Proof. unfold legible. apply _. Defined.

(** A closed decidable proposition, settled by computation. *)
Ltac decided := idtac; apply (bool_decide_unpack _); vm_compute; exact I.

(** C9 as stated fails on a final sigma. [str.lower] turns the capital
    sigma at the end of a word into the final sigma, and a capital sigma on
    its own into the small sigma. With Greek dictionaries that hold both,
    all characters of the label and of the lower-cased label are encodable,
    yet the two are encoded differently. *)
Lemma final_sigma_differs :
  let label := [0x39F; 0x394; 0x39F; 0x3A3]%N in
  let lowered := Py.lower (tables := UCD.excerpt) label in
  lowered = [0x3BF; 0x3B4; 0x3BF; 0x3C2]%N
  ∧ Forall (encodable (tables := UCD.excerpt) greek_dicts) label
  ∧ Forall (encodable (tables := UCD.excerpt) greek_dicts) lowered
  ∧ encode_labels (tables := UCD.excerpt) greek_dicts [label] = Ok ([[0; 1; 0; 2]], [4])
  ∧ encode_labels (tables := UCD.excerpt) greek_dicts [lowered] = Ok ([[0; 1; 0; 3]], [4])
  ∧ encode_labels (tables := UCD.excerpt) greek_dicts [lowered]
    ≠ encode_labels (tables := UCD.excerpt) greek_dicts [label].
Proof.
  assert (Hlow : Py.lower (tables := UCD.excerpt) [0x39F; 0x394; 0x39F; 0x3A3]%N
                 = [0x3BF; 0x3B4; 0x3BF; 0x3C2]%N) by (vm_compute; reflexivity).
  cbv zeta. rewrite Hlow.
  split; [reflexivity|]. split; [decided|]. split; [decided|].
  split; [vm_compute; reflexivity|]. split; [vm_compute; reflexivity|].
  vm_compute. discriminate.
Qed.

(** ** The writer *)

(** C5. When the three lists given to [write_features] do not all have the
    same length, the call raises [AssertionError] and the storage is what
    it was before: no directory or file is created and no record is
    written. *)
Theorem write_features_length_mismatch {tables : Unicode} {W : Type}
    {storage : Storage W} (self : FeatureIO) (tfrecords_path : pystr)
    (labels : list pystr) (images : list (list byte)) (imagenames : list pystr)
    (w : W) :
  ¬ (length labels = length images
     ∧ length images = length imagenames) →
  write_features self tfrecords_path labels images imagenames w
  = (w, Raise AssertionError).
Proof.
  intros Hne. unfold write_features.
  destruct (Nat.eqb_spec (length labels) (length images)) as [H1|H1];
    destruct (Nat.eqb_spec (length images) (length imagenames)) as [H2|H2];
    simpl; try reflexivity.
  exfalso. apply Hne. split; assumption.
Qed.

Lemma write_features_length_mismatch_witness :
  write_features (tables := UCD.excerpt) (storage := journal) ab_dicts
    (lit "out/train.tfrecords") [lit "a"; lit "b"; lit "ab"]
    [[x00%byte]; [x01%byte]] [lit "one"; lit "two"; lit "three"] []
  = ([], Raise AssertionError).
Proof.
  apply write_features_length_mismatch. simpl. intros [H _]. discriminate H.
Defined.

(** ** The grid *)

Section Grid.

Context {A : Type}.
Implicit Types (g : list (list A)) (row : list A).

Lemma has_shape_lookup (rows cols : nat) g (r : nat) row :
  has_shape rows cols g → g !! r = Some row → length row = cols.
Proof.
  intros [_ Hrows] Hr. rewrite Forall_lookup in Hrows. eauto.
Qed.

Lemma has_shape_replicate (rows cols : nat) (x : A) :
  has_shape rows cols (replicate rows (replicate cols x)).
Proof.
  split; [apply length_replicate|].
  apply Forall_forall. intros row Hin.
  apply elem_of_replicate in Hin as [-> _]. apply length_replicate.
Qed.

Lemma has_shape_insert (rows cols : nat) g (r c : nat) row (v : A) :
  has_shape rows cols g → g !! r = Some row →
  has_shape rows cols (<[r := <[c := v]> row]> g).
Proof.
  intros Hs Hr. pose proof (has_shape_lookup _ _ _ _ _ Hs Hr) as Hlen.
  destruct Hs as [Hl Hrows]. split.
  - now rewrite length_insert.
  - apply Forall_insert; [exact Hrows|]. now rewrite length_insert.
Qed.


Lemma cell_insert_ne g (r c r' c' : nat) row (v : A) :
  g !! r = Some row → ¬ (r = r' ∧ c = c') →
  cell (<[r := <[c := v]> row]> g) r' c' = cell g r' c'.
Proof.
  intros Hr Hne. unfold cell.
  destruct (decide (r = r')) as [<-|Hrr].
  - rewrite list_lookup_insert_eq by (eapply lookup_lt_Some, Hr).
    rewrite Hr. simpl. apply list_lookup_insert_ne. intros <-. now apply Hne.
  - now rewrite list_lookup_insert_ne by exact Hrr.
Qed.

End Grid.

(** ** Indexing *)

Lemma in_range_spec (n i : Z) : Np.in_range n i = true ↔ - n ≤ i < n.
Proof. unfold Np.in_range. rewrite andb_true_iff, Z.leb_le, Z.ltb_lt. tauto. Qed.

(** Within [-n, n), the cell numpy resolves an index to is the index
    modulo [n]. *)
Lemma wrap_mod (n i : Z) : - n ≤ i < n → Np.wrap n i = i mod n.
Proof.
  intros H. unfold Np.wrap. destruct (Z.ltb_spec i 0).
  - apply (Z.mod_unique i n (-1)); lia.
  - symmetry. apply Z.mod_small. lia.
Qed.

Lemma mod_range (n i : Z) : - n ≤ i < n → 0 ≤ i mod n < n.
Proof. intros H. apply Z.mod_pos_bound. lia. Qed.

Lemma mod_in_bounds (n i : Z) : 0 ≤ i < n → i mod n = i.
Proof. apply Z.mod_small. Qed.

Lemma in_bounds_addressable (shape index : Z * Z) :
  in_bounds shape index → addressable shape index.
Proof. intros [H1 H2]. split; lia. Qed.

Lemma in_bounds_address (shape index : Z * Z) :
  in_bounds shape index → address shape index = index.
Proof.
  intros [H1 H2]. unfold address. rewrite !mod_in_bounds by assumption.
  now destruct index.
Qed.

Lemma address_in_bounds (shape index : Z * Z) :
  addressable shape index → in_bounds shape (address shape index).
Proof. intros [H1 H2]. split; simpl; apply mod_range; assumption. Qed.

Lemma address_address (shape index : Z * Z) :
  addressable shape index → address shape (address shape index) = address shape index.
Proof. intros H. apply in_bounds_address, address_in_bounds, H. Qed.

Lemma address_positions (shape index index' : Z * Z) :
  addressable shape index → addressable shape index' →
  row_of shape index' = row_of shape index →
  col_of shape index' = col_of shape index →
  address shape index' = address shape index.
Proof.
  intros [Hr Hc] [Hr' Hc'] Hrow Hcol. unfold row_of, col_of in *.
  apply mod_range in Hr, Hc, Hr', Hc'. unfold address. f_equal; lia.
Qed.

Lemma axis_index_ok (n i : Z) (k : nat) :
  Np.axis_index n i = Ok k ↔ - n ≤ i < n ∧ k = Z.to_nat (i mod n).
Proof.
  unfold Np.axis_index. destruct (Np.in_range n i) eqn:Hin.
  - apply in_range_spec in Hin. rewrite (wrap_mod _ _ Hin). split.
    + intros [= <-]. auto.
    + intros [_ ->]. reflexivity.
  - split; [discriminate|]. intros [H%in_range_spec _]. congruence.
Qed.

Lemma getitem_ok {A} (l : list A) (i : nat) (a : A) :
  Py.getitem l i = Ok a ↔ l !! i = Some a.
Proof.
  unfold Py.getitem. destruct (l !! i); split; congruence.
Qed.

Lemma getitem_raises {A} (l : list A) (i : nat) (e : exn) :
  Py.getitem l i = Raise e → e = IndexError.
Proof. unfold Py.getitem. destruct (l !! i); congruence. Qed.

(** The indexed write, by the cell the index pair stands for. *)
Lemma setitem_eq (shape : Z * Z) (g : list (list Np.scalar)) (index : Z * Z)
    (v : Np.scalar) :
  Np.setitem shape g index.1 index.2 v =
  if decide (addressable shape index)
  then match g !! row_of shape index with
       | Some row => Ok (<[row_of shape index := <[col_of shape index := v]> row]> g)
       | None => Raise IndexError
       end
  else Raise IndexError.
Proof.
  unfold Np.setitem, Np.axis_index, Py.getitem, row_of, col_of, addressable.
  destruct (Np.in_range shape.1 index.1) eqn:H1.
  - apply in_range_spec in H1.
    destruct (Np.in_range shape.2 index.2) eqn:H2.
    + apply in_range_spec in H2. rewrite !wrap_mod by assumption.
      destruct (decide _) as [_|Hn]; [|exfalso; apply Hn; auto].
      rewrite !bind_Ok. destruct (g !! _); reflexivity.
    + destruct (decide _) as [[_ H]|_]; [|reflexivity].
      apply in_range_spec in H. congruence.
  - destruct (decide _) as [[H _]|_]; [|reflexivity].
    apply in_range_spec in H. congruence.
Qed.

Lemma setitem_ok (shape : Z * Z) (a a' : list (list Np.scalar)) (index : Z * Z)
    (v : Np.scalar) :
  Np.setitem shape a index.1 index.2 v = Ok a' ↔
  addressable shape index ∧
  ∃ row, a !! row_of shape index = Some row ∧
         a' = <[row_of shape index := <[col_of shape index := v]> row]> a.
Proof.
  rewrite setitem_eq. destruct (decide (addressable shape index)) as [Haddr|Hn].
  - destruct (a !! row_of shape index) as [row|]; split.
    + intros [= <-]. eauto.
    + intros (_ & row' & [= <-] & ->). reflexivity.
    + discriminate.
    + intros (_ & row' & [=] & _).
  - split; [discriminate|]. intros [H _]. contradiction.
Qed.

Lemma setitem_raises (shape : Z * Z) (a : list (list Np.scalar)) (index : Z * Z)
    (v : Np.scalar) (e : exn) :
  Np.setitem shape a index.1 index.2 v = Raise e → e = IndexError.
Proof.
  rewrite setitem_eq. destruct (decide _); [|congruence].
  destruct (a !! _); congruence.
Qed.

(** An index pair and the cell it stands for are written alike. *)
Lemma setitem_address (shape : Z * Z) (g : list (list Np.scalar)) (index : Z * Z)
    (v : Np.scalar) :
  addressable shape index →
  Np.setitem shape g (address shape index).1 (address shape index).2 v
  = Np.setitem shape g index.1 index.2 v.
Proof.
  intros Haddr. rewrite !setitem_eq.
  pose proof (in_bounds_addressable _ _ (address_in_bounds _ _ Haddr)) as Haddr'.
  destruct (decide (addressable shape (address shape index))); [|contradiction].
  destruct (decide (addressable shape index)); [|contradiction].
  pose proof (address_address _ _ Haddr) as Heq.
  unfold address in Heq. simpl in Heq. injection Heq as Hr Hc.
  unfold row_of, col_of, address. simpl. now rewrite Hr, Hc.
Qed.

(** ** The loop that fills the grid *)

Section Fill.

Variable shape : Z * Z.
Variable vals : list Np.scalar.

Lemma fill_cons (i : nat) (index : Z * Z) (rest : list (Z * Z))
    (g g' : list (list Np.scalar)) :
  fill shape vals i (index :: rest) g = Ok g' ↔
  ∃ v row,
    vals !! i = Some v ∧ addressable shape index ∧ g !! row_of shape index = Some row ∧
    fill shape vals (S i) rest (<[row_of shape index := <[col_of shape index := v]> row]> g) = Ok g'.
Proof.
  cbn [fill]. split.
  - intros H. apply bind_ok in H as (v & Hv & H).
    apply bind_ok in H as (g1 & Hg1 & H).
    apply getitem_ok in Hv. apply setitem_ok in Hg1 as (Haddr & row & Hrow & ->).
    exists v, row. auto.
  - intros (v & row & Hv & Haddr & Hrow & H).
    apply getitem_ok in Hv. rewrite Hv, bind_Ok.
    assert (Hset : Np.setitem shape g index.1 index.2 v
                   = Ok (<[row_of shape index := <[col_of shape index := v]> row]> g)).
    { apply setitem_ok. split; [exact Haddr|]. exists row. auto. }
    rewrite Hset. exact H.
Qed.

Lemma fill_raises (idx : list (Z * Z)) (i : nat) (g : list (list Np.scalar)) (e : exn) :
  fill shape vals i idx g = Raise e → e = IndexError.
Proof.
  revert i g. induction idx as [|index rest IH]; intros i g; cbn [fill]; [discriminate|].
  destruct (Py.getitem vals i) as [v|e'] eqn:Hv; simpl.
  - destruct (Np.setitem shape g index.1 index.2 v) as [g1|e'] eqn:Hs; simpl.
    + apply IH.
    + intros [= <-]. eapply setitem_raises, Hs.
  - intros [= <-]. eapply getitem_raises, Hv.
Qed.

Lemma fill_shape (rows cols : nat) (idx : list (Z * Z)) (i : nat)
    (g g' : list (list Np.scalar)) :
  has_shape rows cols g → fill shape vals i idx g = Ok g' → has_shape rows cols g'.
Proof.
  revert i g. induction idx as [|index rest IH]; intros i g Hs.
  - simpl. now intros [= <-].
  - intros (v & row & _ & _ & Hrow & H)%fill_cons.
    eapply IH; [|exact H]. now apply has_shape_insert.
Qed.

Lemma fill_addressable (idx : list (Z * Z)) (i : nat) (g g' : list (list Np.scalar)) :
  fill shape vals i idx g = Ok g' → Forall (addressable shape) idx.
Proof.
  revert i g. induction idx as [|index rest IH]; intros i g; [constructor|].
  intros (v & row & _ & Haddr & _ & H)%fill_cons.
  constructor; [exact Haddr | eapply IH, H].
Qed.

Lemma fill_values (idx : list (Z * Z)) (i : nat) (g g' : list (list Np.scalar)) :
  fill shape vals i idx g = Ok g' → idx = [] ∨ (i + length idx ≤ length vals)%nat.
Proof.
  revert i g. induction idx as [|index rest IH]; intros i g; [auto|].
  intros (v & row & Hv & _ & _ & H)%fill_cons. right.
  apply lookup_lt_Some in Hv. destruct (IH _ _ H) as [->|Hle]; simpl in *; lia.
Qed.

Lemma fill_succeeds (idx : list (Z * Z)) (i : nat) (g : list (list Np.scalar)) :
  has_shape (Z.to_nat shape.1) (Z.to_nat shape.2) g →
  Forall (addressable shape) idx →
  (i + length idx ≤ length vals)%nat →
  ∃ g', fill shape vals i idx g = Ok g'.
Proof.
  revert i g. induction idx as [|index rest IH]; intros i g Hs Hall Hlen.
  - exists g. reflexivity.
  - apply Forall_cons in Hall as [Haddr Hrest]. simpl in Hlen.
    destruct (lookup_lt_is_Some_2 vals i) as [v Hv]; [lia|].
    destruct (lookup_lt_is_Some_2 g (row_of shape index)) as [row Hrow].
    { destruct Hs as [-> _]. destruct Haddr as [Hr _].
      apply mod_range in Hr. unfold row_of. lia. }
    destruct (IH (S i) (<[row_of shape index := <[col_of shape index := v]> row]> g))
      as [g' Hg']; [now apply has_shape_insert | exact Hrest | lia |].
    exists g'. apply fill_cons. exists v, row. auto.
Qed.

(** The loop only stores elements of [vals]. *)
Lemma fill_cells (P : Np.scalar → Prop) (idx : list (Z * Z)) (i : nat)
    (g g' : list (list Np.scalar)) :
  Forall P vals → Forall (Forall P) g →
  fill shape vals i idx g = Ok g' → Forall (Forall P) g'.
Proof.
  intros Hvals. revert i g. induction idx as [|index rest IH]; intros i g Hg.
  - simpl. now intros [= <-].
  - intros (v & row & Hv & _ & Hrow & H)%fill_cons.
    eapply IH; [|exact H]. apply Forall_insert; [exact Hg|].
    apply Forall_insert.
    + rewrite Forall_lookup in Hg. eauto.
    + rewrite Forall_lookup in Hvals. eauto.
Qed.

Lemma fill_row_untouched (r : nat) (idx : list (Z * Z)) (i : nat)
    (g g' : list (list Np.scalar)) :
  fill shape vals i idx g = Ok g' →
  Forall (fun index => row_of shape index ≠ r) idx →
  g' !! r = g !! r.
Proof.
  revert i g. induction idx as [|index rest IH]; intros i g.
  - simpl. now intros [= <-].
  - intros (v & row & _ & _ & Hrow & H)%fill_cons Hall.
    apply Forall_cons in Hall as [Hne Hrest].
    rewrite (IH _ _ H Hrest). now apply list_lookup_insert_ne.
Qed.

Lemma fill_cell_untouched (r c : nat) (idx : list (Z * Z)) (i : nat)
    (g g' : list (list Np.scalar)) :
  fill shape vals i idx g = Ok g' →
  Forall (fun index => ¬ (row_of shape index = r ∧ col_of shape index = c)) idx →
  cell g' r c = cell g r c.
Proof.
  revert i g. induction idx as [|index rest IH]; intros i g.
  - simpl. now intros [= <-].
  - intros (v & row & _ & _ & Hrow & H)%fill_cons Hall.
    apply Forall_cons in Hall as [Hne Hrest].
    rewrite (IH _ _ H Hrest). now apply cell_insert_ne.
Qed.


(** Index pairs and the cells they stand for fill the grid alike. *)
Lemma fill_address (idx : list (Z * Z)) (i : nat) (g : list (list Np.scalar)) :
  Forall (addressable shape) idx →
  fill shape vals i (address shape <$> idx) g = fill shape vals i idx g.
Proof.
  intros Hall. revert i g. induction Hall as [|index rest Haddr _ IH]; intros i g;
    [reflexivity|].
  rewrite fmap_cons. cbn [fill].
  destruct (Py.getitem vals i) as [v|e]; [|reflexivity].
  rewrite !bind_Ok, (setitem_address shape g index v Haddr).
  destruct (Np.setitem shape g index.1 index.2 v); [|reflexivity].
  rewrite !bind_Ok. apply IH.
Qed.

End Fill.

(** ** Dictionary lookups *)

Lemma dict_getitem_ok (d : pydict) (key v : pystr) :
  dict_getitem d key = Ok v → (key, v) ∈ d.
Proof.
  induction d as [|[k' v'] d IH]; simpl; [discriminate|].
  destruct (decide (k' = key)) as [->|Hne].
  - intros [= ->]. left.
  - intros H. right. now apply IH.
Qed.

Lemma dict_getitem_value (d : pydict) (key v : pystr) :
  dict_getitem d key = Ok v → v ∈ dict_values d.
Proof.
  intros H%dict_getitem_ok. unfold dict_values.
  apply list_elem_of_fmap. exists (key, v). auto.
Qed.

Lemma dict_getitem_raises (d : pydict) (key : pystr) (e : exn) :
  dict_getitem d key = Raise e → e = KeyError.
Proof.
  induction d as [|[k' v'] d IH]; simpl; [congruence|].
  destruct (decide (k' = key)); [discriminate | exact IH].
Qed.

Lemma dict_getitem_miss (d : pydict) (key : pystr) :
  dict_getitem d key = Raise KeyError ↔ key ∉ keys d.
Proof.
  unfold keys. induction d as [|[k v] d IH]; simpl.
  - split; [intros _; apply not_elem_of_nil | reflexivity].
  - destruct (decide (k = key)) as [->|Hne].
    + split; [discriminate|]. intros H. exfalso. apply H. left.
    + rewrite IH. split.
      * intros Hnot [Heq|Hin]%elem_of_cons; [congruence | contradiction].
      * intros Hnot Hin. apply Hnot. now right.
Qed.

(** With distinct keys, an entry of the dictionary is what lookup finds. *)
Lemma dict_getitem_entry (d : pydict) (key v : pystr) :
  NoDup (keys d) → (key, v) ∈ d → dict_getitem d key = Ok v.
Proof.
  unfold keys. induction d as [|[k' v'] d IH]; simpl; intros Hnd Hin.
  - now apply elem_of_nil in Hin.
  - apply NoDup_cons in Hnd as [Hnotin Hnd].
    destruct (decide (k' = key)) as [->|Hne].
    + apply elem_of_cons in Hin as [[= ->]|Hin]; [reflexivity|].
      exfalso. apply Hnotin. apply list_elem_of_fmap. exists (key, v). auto.
    + apply elem_of_cons in Hin as [[= -> ->]|Hin]; [contradiction|].
      now apply IH.
Qed.

(** ** The decoder, step by step *)

Section Decoder.

Variable self : FeatureIO.

Lemma translate_ok (vals : list Z) (arr : list Np.scalar) :
  translate self vals = Ok arr ↔ Forall2 (translated self) vals arr.
Proof.
  unfold translate. rewrite fmap_ok. split.
  - intros (ords & Hords & ->). apply mapM_ok in Hords.
    unfold Np.array. apply Forall2_fmap_r.
    eapply Forall2_impl; [exact Hords|]. intros tmp ordinal H. exists ordinal. auto.
  - intros H.
    assert (∃ ords, Forall2 (fun tmp o => dict_getitem (ord_map self) (Py.str tmp) = Ok o)
                            vals ords ∧ arr = Np.array ords) as (ords & Hords & ->).
    { induction H as [|tmp v vals arr (o & Ho & ->) _ (ords & Hords & ->)].
      - exists []. split; [constructor | reflexivity].
      - exists (o :: ords). split; [now constructor | reflexivity]. }
    exists ords. split; [now apply mapM_ok | reflexivity].
Qed.

Lemma translate_raises (vals : list Z) (e : exn) :
  translate self vals = Raise e → e = KeyError.
Proof.
  unfold translate.
  assert (H : ∀ e', mapM (fun tmp => dict_getitem (ord_map self) (Py.str tmp)) vals
                    = Raise e' → e' = KeyError).
  { induction vals as [|tmp vals IH]; simpl; intros e'; [discriminate|].
    destruct (dict_getitem (ord_map self) (Py.str tmp)) eqn:Hd; simpl.
    - destruct (mapM _ vals); simpl; [discriminate|].
      intros [= <-]. now apply IH.
    - intros [= <-]. eapply dict_getitem_raises, Hd. }
  destruct (mapM _ vals); simpl; [discriminate|]. intros [= <-]. now apply H.
Qed.

Lemma translate_known (vals : list Z) :
  known_values self vals ↔ ∃ arr, translate self vals = Ok arr.
Proof.
  unfold known_values. split.
  - induction 1 as [|tmp vals Hk _ [arr Harr]].
    + exists []. reflexivity.
    + destruct (dict_getitem (ord_map self) (Py.str tmp)) as [o|] eqn:Ho;
        [|discriminate].
      exists (Np.Str (Np.rstrip_nul o) :: arr). apply translate_ok.
      constructor; [exists o; auto | now apply translate_ok].
  - intros [arr Harr]. apply translate_ok in Harr.
    induction Harr as [|tmp v vals arr (o & Ho & _) _ IH]; constructor; [|exact IH].
    now rewrite Ho.
Qed.

Lemma translate_element (vals : list Z) :
  known_values self vals → translate self vals = Ok (element self <$> vals).
Proof.
  intros Hknown. apply translate_ok. apply Forall2_fmap_r, Forall_Forall2_diag.
  eapply Forall_impl; [exact Hknown|]. intros tmp Hok. simpl in Hok |- *.
  unfold translated, element.
  destruct (dict_getitem (ord_map self) (Py.str tmp)) as [o|];
    [exists o; split; reflexivity | discriminate Hok].
Qed.

Lemma ones_ok (shape : Z * Z) (x : Np.scalar) (g : list (list Np.scalar)) :
  Np.ones shape x = Ok g ↔
  0 ≤ shape.1 ∧ 0 ≤ shape.2
  ∧ g = replicate (Z.to_nat shape.1) (replicate (Z.to_nat shape.2) x).
Proof.
  destruct shape as [rows cols]. unfold Np.ones. simpl.
  destruct (Z.ltb_spec rows 0); destruct (Z.ltb_spec cols 0); simpl;
    (split; [intros [= <-] | intros (? & ? & ->)]); try lia; auto.
Qed.

Lemma number_lists_ok (st : SparseTensor) (grid : list (list Np.scalar)) :
  number_lists self st = Ok grid ↔
  ∃ arr, translate self (values st) = Ok arr
         ∧ 0 ≤ (dense_shape st).1 ∧ 0 ≤ (dense_shape st).2
         ∧ fill (dense_shape st) arr 0 (indices st)
             (replicate (Z.to_nat (dense_shape st).1)
                        (replicate (Z.to_nat (dense_shape st).2) (Np.one arr)))
           = Ok grid.
Proof.
  unfold number_lists. rewrite bind_ok. split.
  - intros (arr & Harr & H). apply bind_ok in H as (g0 & Hg0 & H).
    apply ones_ok in Hg0 as (? & ? & ->). exists arr. auto.
  - intros (arr & Harr & Hr & Hc & H). exists arr. split; [exact Harr|].
    apply bind_ok. eexists. split; [|exact H]. apply ones_ok. auto.
Qed.

Lemma number_lists_shape (st : SparseTensor) (grid : list (list Np.scalar)) :
  number_lists self st = Ok grid →
  has_shape (Z.to_nat (dense_shape st).1) (Z.to_nat (dense_shape st).2) grid.
Proof.
  intros (arr & _ & _ & _ & H)%number_lists_ok.
  eapply fill_shape; [|exact H]. apply has_shape_replicate.
Qed.

Lemma str_lists_ok (grid : list (list Np.scalar)) (strs : list (list pystr)) :
  str_lists self grid = Ok strs ↔
  Forall2 (Forall2 (fun val s => int_to_char self (Np.Scalar val) = Ok s)) grid strs.
Proof.
  unfold str_lists. rewrite mapM_ok. split; intros H;
    (eapply Forall2_impl; [exact H|]); intros row srow Hrow; now apply mapM_ok.
Qed.

Lemma int_to_char_fill (arr : list Np.scalar) :
  int_to_char self (Np.Scalar (Np.one arr)) = Ok NUL.
Proof. destruct arr; reflexivity. Qed.

Lemma int_to_char_length (number : Np.number) (s : pystr) :
  single_chars (char_dict self) →
  int_to_char self number = Ok s → (length s ≤ 1)%nat.
Proof.
  intros Hsc. unfold single_chars in Hsc. rewrite Forall_forall in Hsc.
  assert (Hget : ∀ key, dict_getitem (char_dict self) key = Ok s →
                        (length s ≤ 1)%nat).
  { intros key H. eapply Hsc, dict_getitem_value, H. }
  destruct number as [n|[v|]]; simpl.
  - destruct (n =? 1); [intros [= <-]; simpl; lia | apply Hget].
  - destruct (decide (v = lit "1")); [intros [= <-]; simpl; lia | apply Hget].
  - intros [= <-]. simpl. lia.
Qed.

Lemma join_row_length (l : list pystr) :
  Forall (fun s : pystr => (length s ≤ 1)%nat) l →
  (length (join_row l) ≤ length l)%nat.
Proof.
  induction 1 as [|s l Hs _ IH]; [simpl; lia|].
  destruct (decide (s = NUL)) as [->|Hne].
  - rewrite join_row_nul. simpl. lia.
  - rewrite join_row_keep by exact Hne. rewrite length_app. simpl. lia.
Qed.

Lemma join_row_no_nul (l : list pystr) :
  Forall (fun s : pystr => (length s ≤ 1)%nat) l → 0%N ∉ join_row l.
Proof.
  induction 1 as [|s l Hs _ IH]; [apply not_elem_of_nil|].
  destruct (decide (s = NUL)) as [->|Hne].
  - now rewrite join_row_nul.
  - rewrite join_row_keep by exact Hne.
    destruct s as [|c [|c' s]]; simpl in Hs; [exact IH | | lia].
    simpl. intros [Heq|Hin]%elem_of_cons.
    + apply Hne. now rewrite <- Heq.
    + now apply IH.
Qed.

Lemma sparse_tensor_to_str_ok (st : SparseTensor) (res : list pystr) :
  sparse_tensor_to_str self st = Ok res ↔
  ∃ grid strs, number_lists self st = Ok grid
               ∧ str_lists self grid = Ok strs
               ∧ res = map join_row strs.
Proof.
  unfold sparse_tensor_to_str. rewrite bind_ok. split.
  - intros (grid & Hg & H). apply bind_ok in H as (strs & Hs & [= <-]). eauto.
  - intros (grid & strs & Hg & Hs & ->). exists grid. split; [exact Hg|].
    rewrite Hs. reflexivity.
Qed.

(** When every cell is accepted by [int_to_char], the grid decodes. *)
Lemma str_lists_succeeds (grid : list (list Np.scalar)) :
  Forall (Forall (fun val => is_ok (int_to_char self (Np.Scalar val)) = true)) grid →
  ∃ strs, str_lists self grid = Ok strs.
Proof.
  intros H. unfold str_lists.
  destruct (mapM (mapM (fun val => int_to_char self (Np.Scalar val))) grid)
    as [strs|e] eqn:Hm; [eauto|].
  assert (Hok : is_ok (mapM (mapM (fun val => int_to_char self (Np.Scalar val))) grid) = true).
  { apply mapM_succeeds. eapply Forall_impl; [exact H|].
    intros row Hrow. now apply mapM_succeeds. }
  rewrite Hm in Hok. discriminate.
Qed.

Lemma sparse_tensor_to_str_succeeds (st : SparseTensor) :
  0 ≤ (dense_shape st).1 → 0 ≤ (dense_shape st).2 →
  known_values self (values st) →
  Forall (addressable (dense_shape st)) (indices st) →
  (length (indices st) ≤ length (values st))%nat →
  decodable self →
  ∃ res, sparse_tensor_to_str self st = Ok res.
Proof.
  intros Hr Hc Hknown Haddr Hlen Hdec.
  apply translate_known in Hknown as [arr Harr].
  pose proof Harr as Hrel. apply translate_ok in Hrel.
  destruct (fill_succeeds (dense_shape st) arr (indices st) 0
              (replicate (Z.to_nat (dense_shape st).1)
                 (replicate (Z.to_nat (dense_shape st).2) (Np.one arr))))
    as [grid Hgrid]; [apply has_shape_replicate | exact Haddr | |].
  { rewrite <- (Forall2_length _ _ _ Hrel). simpl. lia. }
  assert (Hcells : Forall (Forall (fun val => is_ok (int_to_char self (Np.Scalar val)) = true)) grid).
  { eapply fill_cells; [| |exact Hgrid].
    - apply Forall_lookup. intros i v Hv.
      destruct (Forall2_lookup_r _ _ _ _ _ Hrel Hv) as (tmp & _ & o & Ho & ->).
      unfold decodable in Hdec. rewrite Forall_forall in Hdec.
      eapply Hdec, dict_getitem_value, Ho.
    - apply Forall_forall. intros row [-> _]%elem_of_replicate.
      apply Forall_forall. intros val [-> _]%elem_of_replicate.
      now rewrite int_to_char_fill. }
  destruct (str_lists_succeeds _ Hcells) as [strs Hstrs].
  exists (map join_row strs). apply sparse_tensor_to_str_ok.
  exists grid, strs. split; [|auto]. apply number_lists_ok. exists arr. auto.
Qed.

(** With values that are keys of [ord_map] and a non-negative shape, the
    outcome of the decoder follows the outcome of the loop. *)
Lemma sparse_tensor_to_str_fill (st : SparseTensor) (arr : list Np.scalar) :
  translate self (values st) = Ok arr →
  0 ≤ (dense_shape st).1 → 0 ≤ (dense_shape st).2 →
  sparse_tensor_to_str self st =
  (grid ← fill (dense_shape st) arr 0 (indices st)
            (replicate (Z.to_nat (dense_shape st).1)
               (replicate (Z.to_nat (dense_shape st).2) (Np.one arr)));
   strs ← str_lists self grid;
   Ok (map join_row strs)).
Proof.
  intros Harr Hr Hc.
  assert (Hones : Np.ones (dense_shape st) (Np.one arr)
                  = Ok (replicate (Z.to_nat (dense_shape st).1)
                          (replicate (Z.to_nat (dense_shape st).2) (Np.one arr))))
    by (apply ones_ok; auto).
  unfold sparse_tensor_to_str, number_lists. now rewrite Harr, bind_Ok, Hones, bind_Ok.
Qed.

Lemma decoded_shape_of_ok (st : SparseTensor) (res : list pystr) :
  single_chars (char_dict self) →
  sparse_tensor_to_str self st = Ok res →
  Z.of_nat (length res) = (dense_shape st).1
  ∧ Forall (fun s : pystr => Z.of_nat (length s) ≤ (dense_shape st).2) res.
Proof.
  intros Hsc (grid & strs & Hgrid & Hstrs & ->)%sparse_tensor_to_str_ok.
  pose proof (number_lists_shape _ _ Hgrid) as [Hlen Hrows].
  apply number_lists_ok in Hgrid as (_ & _ & Hr & Hc & _).
  apply str_lists_ok in Hstrs. split.
  - rewrite length_map, <- (Forall2_length _ _ _ Hstrs), Hlen. lia.
  - apply Forall_map. apply Forall_lookup. intros i srow Hi.
    destruct (Forall2_lookup_r _ _ _ _ _ Hstrs Hi) as (row & Hrow & Hcells).
    rewrite Forall_lookup in Hrows. specialize (Hrows _ _ Hrow).
    assert (Hone : Forall (fun s : pystr => (length s ≤ 1)%nat) srow).
    { apply Forall_lookup. intros c s Hs.
      destruct (Forall2_lookup_r _ _ _ _ _ Hcells Hs) as (val & _ & Hval).
      eapply int_to_char_length; [exact Hsc | exact Hval]. }
    apply join_row_length in Hone.
    rewrite <- (Forall2_length _ _ _ Hcells), Hrows in Hone. simpl. lia.
Qed.

End Decoder.

(** ** The shape of the decoded rows *)

(** C3. With a character dictionary whose values are single characters:
    whatever [sparse_tensor_to_str] returns has exactly as many strings as
    [dense_shape] has rows, each of at most as many characters as it has
    columns; and it does return for a non-negative shape and in-bounds
    indices, when the values are keys of [ord_map], one for each index, and
    their ordinals are known to [int_to_char]. *)
Theorem decoded_shape (self : FeatureIO) (st : SparseTensor) :
  single_chars (char_dict self) →
  (∀ res, sparse_tensor_to_str self st = Ok res →
     Z.of_nat (length res) = (dense_shape st).1
     ∧ Forall (fun s : pystr => Z.of_nat (length s) ≤ (dense_shape st).2) res)
  ∧ (0 ≤ (dense_shape st).1 → 0 ≤ (dense_shape st).2 →
     Forall (in_bounds (dense_shape st)) (indices st) →
     known_values self (values st) →
     (length (indices st) ≤ length (values st))%nat →
     decodable self →
     ∃ res, sparse_tensor_to_str self st = Ok res
            ∧ Z.of_nat (length res) = (dense_shape st).1
            ∧ Forall (fun s : pystr => Z.of_nat (length s) ≤ (dense_shape st).2) res).
Proof.
  intros Hsc. split.
  - intros res Hres. eapply decoded_shape_of_ok; eassumption.
  - intros Hr Hc Hin Hknown Hlen Hdec.
    destruct (sparse_tensor_to_str_succeeds self st) as [res Hres]; try assumption.
    { eapply Forall_impl; [exact Hin|]. apply in_bounds_addressable. }
    exists res. split; [exact Hres|]. eapply decoded_shape_of_ok; eassumption.
Qed.

(** Goals [Forall P l] on a concrete list, each element settled by [tac]. *)
Ltac each tac :=
  unfold single_chars, known_values, decodable, integer_keys, dict_values, keys;
  simpl;
  repeat match goal with
         | |- Forall _ [] => constructor
         | |- Forall _ (_ :: _) => constructor; [tac|]
         end.

Ltac computed := idtac; vm_compute; reflexivity.

Ltac bounds :=
  idtac; solve [unfold in_bounds, addressable; simpl; lia].

Lemma decoded_shape_witness :
  ∃ res, sparse_tensor_to_str ab_dicts ab_tensor = Ok res
         ∧ Z.of_nat (length res) = 1
         ∧ Forall (fun s : pystr => Z.of_nat (length s) ≤ 2) res.
Proof.
  unfold ab_tensor. destruct (decoded_shape ab_dicts ab_tensor) as [_ H].
  - each ltac:(simpl; lia).
  - unfold ab_tensor in H. apply H.
    + simpl. lia.
    + simpl. lia.
    + each bounds.
    + each computed.
    + simpl. lia.
    + each computed.
Defined.

(** ** Index bounds *)

(** C2, as the code has it. For a non-negative [dense_shape] and values
    that are all keys of [ord_map]: decoding raises [IndexError] as soon as
    one index pair lies outside [-rows, rows) x [-cols, cols). When every
    pair lies within that range, a negative index counts from the end of
    its axis: the tensor decodes as the tensor does in which each pair is
    replaced by the cell it stands for, within [0, rows) x [0, cols); and
    when, besides, there is a value for each index and the ordinals are
    known to [int_to_char], decoding returns. *)
Theorem index_range (self : FeatureIO) (st : SparseTensor) :
  0 ≤ (dense_shape st).1 → 0 ≤ (dense_shape st).2 →
  known_values self (values st) →
  (Exists (fun index => ¬ addressable (dense_shape st) index) (indices st) →
   sparse_tensor_to_str self st = Raise IndexError)
  ∧ (Forall (addressable (dense_shape st)) (indices st) →
     Forall (in_bounds (dense_shape st)) (indices (addressed st))
     ∧ sparse_tensor_to_str self st = sparse_tensor_to_str self (addressed st)
     ∧ ((length (indices st) ≤ length (values st))%nat →
        decodable self →
        ∃ res, sparse_tensor_to_str self st = Ok res)).
Proof.
  intros Hr Hc Hknown. split.
  - intros Hout. apply translate_known in Hknown as [arr Harr].
    rewrite (sparse_tensor_to_str_fill self st arr Harr Hr Hc).
    destruct (fill (dense_shape st) arr 0 (indices st) _) as [grid|e] eqn:Hfill.
    + exfalso. apply fill_addressable in Hfill.
      apply Exists_exists in Hout as (index & Hin & Hnot).
      rewrite Forall_forall in Hfill. apply Hnot, Hfill, Hin.
    + simpl. apply fill_raises in Hfill. now subst e.
  - intros Haddr. split; [|split].
    + simpl. apply Forall_fmap. eapply Forall_impl; [exact Haddr|].
      intros index. apply address_in_bounds.
    + apply translate_known in Hknown as [arr Harr].
      rewrite (sparse_tensor_to_str_fill self st arr Harr Hr Hc).
      rewrite (sparse_tensor_to_str_fill self (addressed st) arr Harr Hr Hc).
      simpl. now rewrite fill_address.
    + intros Hlen Hdec. now apply sparse_tensor_to_str_succeeds.
Qed.

Lemma index_range_witness :
  sparse_tensor_to_str ab_dicts
    {| indices := [(0, 0); (1, 1)]; values := [0; 2]; dense_shape := (1, 1) |}
  = Raise IndexError
  ∧ (let st := {| indices := [(0, -1); (0, -2)]; values := [0; 2];
                  dense_shape := (1, 2) |} in
     Forall (in_bounds (1, 2)) [(0, 1); (0, 0)]
     ∧ sparse_tensor_to_str ab_dicts st
       = sparse_tensor_to_str ab_dicts
           {| indices := [(0, 1); (0, 0)]; values := [0; 2]; dense_shape := (1, 2) |}
     ∧ ∃ res, sparse_tensor_to_str ab_dicts st = Ok res).
Proof.
  split.
  - apply index_range.
    + simpl. lia.
    + simpl. lia.
    + each computed.
    + apply Exists_cons_tl, Exists_cons_hd. unfold addressable. simpl. lia.
  - destruct (index_range ab_dicts
                {| indices := [(0, -1); (0, -2)]; values := [0; 2];
                   dense_shape := (1, 2) |}) as [_ H].
    + simpl. lia.
    + simpl. lia.
    + each computed.
    + destruct H as (Hin & Heq & Hres); [each bounds|].
      split; [exact Hin|]. split; [exact Heq|]. apply Hres.
      * simpl. lia.
      * each computed.
Defined.

(** C2 as stated fails: the pairs (0, -1) and (0, -2) are outside
    [0, 1) x [0, 2), yet a tensor of shape (1, 2) holding them decodes, the
    first value landing in the last cell and the second in the cell before
    it. *)
Lemma negative_index_decodes :
  let st := {| indices := [(0, -1); (0, -2)]; values := [0; 2];
               dense_shape := (1, 2) |} in
  0 ≤ (dense_shape st).1 ∧ 0 ≤ (dense_shape st).2
  ∧ Forall (fun index => ¬ in_bounds (dense_shape st) index) (indices st)
  ∧ sparse_tensor_to_str ab_dicts st = Ok [lit "ba"]
  ∧ sparse_tensor_to_str ab_dicts st ≠ Raise IndexError.
Proof.
  simpl. split; [lia|]. split; [lia|]. split; [|split; [reflexivity | discriminate]].
  repeat constructor; unfold in_bounds; simpl; lia.
Qed.

(** ** Writes to the grid *)




(** ** Rows no entry addresses *)

(** C8, as the code has it. When decoding returns and no entry of
    [indices] has row coordinate [r] or [r - rows] (the negative index of
    the same row), the string decoded for row [r] is empty. *)
Theorem unaddressed_row_empty (self : FeatureIO) (st : SparseTensor)
    (res : list pystr) (r : Z) :
  sparse_tensor_to_str self st = Ok res →
  0 ≤ r < (dense_shape st).1 →
  (∀ index, index ∈ indices st →
     index.1 ≠ r ∧ index.1 ≠ r - (dense_shape st).1) →
  res !! Z.to_nat r = Some [].
Proof.
  intros (grid & strs & Hgrid & Hstrs & ->)%sparse_tensor_to_str_ok Hr Hnone.
  apply number_lists_ok in Hgrid as (arr & _ & _ & Hc & Hfill).
  pose proof (fill_addressable _ _ _ _ _ _ Hfill) as Haddr.
  assert (Hrow : grid !! Z.to_nat r
                 = Some (replicate (Z.to_nat (dense_shape st).2) (Np.one arr))).
  { rewrite (fill_row_untouched _ _ (Z.to_nat r) _ _ _ _ Hfill).
    - apply lookup_replicate_2. lia.
    - rewrite Forall_forall in Haddr. apply Forall_forall. intros index Hin.
      destruct (Haddr _ Hin) as [Hin1 _]. destruct (Hnone _ Hin) as [Hne1 Hne2].
      pose proof (mod_range _ _ Hin1) as Hw.
      unfold row_of. rewrite <- (wrap_mod _ _ Hin1) in *. unfold Np.wrap in *.
      destruct (Z.ltb_spec index.1 0); lia. }
  apply str_lists_ok in Hstrs.
  destruct (Forall2_lookup_l _ _ _ _ _ Hstrs Hrow) as (srow & Hsrow & Hcells).
  apply mapM_ok in Hcells.
  rewrite (mapM_replicate (fun val => int_to_char self (Np.Scalar val)) _ _ NUL
             (int_to_char_fill self arr)) in Hcells.
  injection Hcells as <-.
  change (map join_row strs) with (join_row <$> strs).
  rewrite list_lookup_fmap, Hsrow. simpl. now rewrite join_row_all_nul.
Qed.

Lemma unaddressed_row_empty_witness :
  [lit "ab"; []] !! Z.to_nat 1 = Some [].
Proof.
  apply (unaddressed_row_empty ab_dicts
           {| indices := [(0, 0); (-2, 1)]; values := [0; 2]; dense_shape := (2, 2) |}).
  - reflexivity.
  - simpl. lia.
  - intros index Hin. simpl in Hin.
    apply elem_of_cons in Hin as [->|Hin]; [simpl; lia|].
    apply elem_of_cons in Hin as [->|Hin]; [simpl; lia|].
    now apply elem_of_nil in Hin.
Defined.

(** C8 as stated fails: in a grid of one row, the entry (-1, 0) has row
    coordinate -1, so no entry has row coordinate 0, yet row 0 decodes to
    a non-empty string. *)
Lemma negative_row_is_written :
  let st := {| indices := [(-1, 0)]; values := [0]; dense_shape := (1, 1) |} in
  Forall (fun index => index.1 ≠ 0) (indices st)
  ∧ ∃ res, sparse_tensor_to_str ab_dicts st = Ok res
           ∧ res !! Z.to_nat 0 = Some (lit "a")
           ∧ res !! Z.to_nat 0 ≠ Some [].
Proof.
  simpl. split.
  - repeat constructor. simpl. lia.
  - exists [lit "a"]. split; [reflexivity|]. split; [reflexivity | discriminate].
Qed.

(** ** The decimal string of an integer *)

Lemma lit_cons (a : ascii) (s : string) : lit (String a s) = N_of_ascii a :: lit s.
Proof. reflexivity. Qed.

Lemma lit_inj (s1 s2 : string) : lit s1 = lit s2 → s1 = s2.
Proof.
  revert s2. induction s1 as [|a s1 IH]; intros [|b s2]; try discriminate;
    [reflexivity|].
  rewrite !lit_cons. intros [= Hab Hs]. f_equal; [|now apply IH].
  apply (f_equal ascii_of_N) in Hab. now rewrite !ascii_N_embedding in Hab.
Qed.

Lemma to_int_not_nil (n : Z) :
  Z.to_int n ≠ Decimal.Pos Decimal.Nil ∧ Z.to_int n ≠ Decimal.Neg Decimal.Nil.
Proof.
  pose proof (DecimalZ.to_of (Z.to_int n)) as H. rewrite DecimalZ.of_to in H.
  split; intros Heq; rewrite Heq in H; discriminate H.
Qed.

Lemma str_inj (n m : Z) : Py.str n = Py.str m → n = m.
Proof.
  unfold Py.str. intros H%lit_inj. apply DecimalZ.to_int_inj.
  destruct (to_int_not_nil n) as [Hn1 Hn2]. destruct (to_int_not_nil m) as [Hm1 Hm2].
  pose proof (NilZero.isi _ Hn1 Hn2) as Hn. pose proof (NilZero.isi _ Hm1 Hm2) as Hm.
  rewrite H in Hn. congruence.
Qed.

Lemma digits_no_nul (d : Decimal.uint) : 0%N ∉ lit (NilEmpty.string_of_uint d).
Proof.
  induction d; cbn [NilEmpty.string_of_uint]; [apply not_elem_of_nil|..];
    rewrite lit_cons; (apply not_elem_of_cons; split; [discriminate | assumption]).
Qed.

(** The decimal string of an integer has no NUL character. *)
Lemma str_no_nul (n : Z) : 0%N ∉ Py.str n.
Proof.
  unfold Py.str, NilZero.string_of_int, NilZero.string_of_uint.
  destruct (Z.to_int n) as [d|d].
  - destruct d; try apply digits_no_nul.
    rewrite lit_cons. apply not_elem_of_cons. split; [discriminate | apply not_elem_of_nil].
  - rewrite lit_cons. apply not_elem_of_cons. split; [discriminate|].
    destruct d; try apply digits_no_nul.
    rewrite lit_cons. apply not_elem_of_cons. split; [discriminate | apply not_elem_of_nil].
Qed.

(** A string without NUL comes back from an array as it is. *)
Lemma rstrip_nul_id (s : pystr) : 0%N ∉ s → Np.rstrip_nul s = s.
Proof.
  intros Hnot. unfold Np.rstrip_nul.
  assert (Hl : Np.lstrip_nul (reverse s) = reverse s).
  { destruct (reverse s) as [|x l] eqn:Hrev; [reflexivity|].
    destruct x; [|reflexivity].
    exfalso. apply Hnot. apply elem_of_reverse. rewrite Hrev. left. }
  rewrite Hl. apply reverse_involutive.
Qed.

Lemma str_rstrip (n : Z) : Np.rstrip_nul (Py.str n) = Py.str n.
Proof. apply rstrip_nul_id, str_no_nul. Qed.

Lemma str_not_one (c : N) : c ≠ 1%N → Py.str (Z.of_N c) ≠ lit "1".
Proof.
  intros Hne Heq. apply Hne. apply N2Z.inj. apply str_inj. exact Heq.
Qed.

(** ** Encoding, then decoding *)

Lemma canonical_spec {tables : Unicode} (k : pystr) :
  canonical k = true → ∃ n, Py.int k = Ok n ∧ Py.str n = k.
Proof.
  unfold canonical. destruct (Py.int k) as [n|]; [|discriminate].
  intros H%bool_decide_eq_true. eauto.
Qed.

Section RoundTrip.

Context {tables : Unicode}.
Variable self : FeatureIO.
Hypothesis distinct_keys : NoDup (keys (ord_map self)).
Hypothesis canonical_keys : Forall (fun k => canonical k = true) (keys (ord_map self)).

(** The index [char_to_int] gives is one [ord_map] takes back to the
    ordinal. *)
Lemma char_to_int_back (c c' : N) :
  Py.lower [c] = [c'] → in_ord_map self c' →
  ∃ n, char_to_int self [c] = Ok n
       ∧ dict_getitem (ord_map self) (Py.str n) = Ok (Py.str (Z.of_N c')).
Proof.
  intros Hlow Hin. rewrite (char_to_int_single self [c] c' Hlow).
  destruct (values_split _ _ Hin) as (before & k & after & Heq & Hnot).
  assert (Hk : (k, Py.str (Z.of_N c')) ∈ ord_map self).
  { rewrite Heq. apply elem_of_app. right. left. }
  assert (Hcan : canonical k = true).
  { rewrite Forall_forall in canonical_keys. apply canonical_keys.
    unfold keys. apply list_elem_of_fmap. exists (k, Py.str (Z.of_N c')). auto. }
  apply canonical_spec in Hcan as (n & Hn & Hstr).
  exists n. split.
  - rewrite Heq, scan_first by exact Hnot. exact Hn.
  - rewrite Hstr. now apply dict_getitem_entry.
Qed.

Lemma encode_label_back (label : pystr) :
  Forall single_lower label →
  Forall (in_ord_map self) (lower_each label) →
  ∃ code, encode_label self label = Ok code
          ∧ Forall2 (fun c n => dict_getitem (ord_map self) (Py.str n)
                                = Ok (Py.str (Z.of_N c)))
                    (lower_each label) code.
Proof.
  induction 1 as [|c label [c' Hc]%single_lower_spec _ IH].
  - intros _. exists []. split; [reflexivity | constructor].
  - rewrite lower_each_cons, Hc. cbn [app]. intros [Hin Hrest]%Forall_cons.
    destruct (char_to_int_back c c' Hc Hin) as (n & Hn & Hback).
    destruct (IH Hrest) as (code & Hcode & Hrel).
    exists (n :: code). cbn [encode_label]. rewrite Hn, Hcode.
    split; [reflexivity | now constructor].
Qed.

Lemma translate_back (cs : pystr) (code : list Z) :
  Forall2 (fun c n => dict_getitem (ord_map self) (Py.str n) = Ok (Py.str (Z.of_N c)))
          cs code →
  translate self code = Ok ((fun c => Np.Str (Py.str (Z.of_N c))) <$> cs).
Proof.
  intros H. apply translate_ok. apply Forall2_fmap_r, Forall2_flip.
  eapply Forall2_impl; [exact H|]. intros c n Hn.
  exists (Py.str (Z.of_N c)). split; [exact Hn|]. now rewrite str_rstrip.
Qed.

Lemma element_back (cs : pystr) (code : list Z) :
  Forall2 (fun c n => dict_getitem (ord_map self) (Py.str n) = Ok (Py.str (Z.of_N c)))
          cs code →
  known_values self code
  ∧ element self <$> code = (fun c => Np.Str (Py.str (Z.of_N c))) <$> cs.
Proof.
  induction 1 as [|c n cs code Hn _ [IHk IHe]]; [split; [constructor | reflexivity]|].
  split.
  - constructor; [now rewrite Hn | exact IHk].
  - rewrite !fmap_cons, IHe. unfold element at 1. now rewrite Hn, str_rstrip.
Qed.

End RoundTrip.

(** The loop on the indices [(0, i), (0, i+1), ...] of a one-row tensor
    copies the values into the row. *)
Lemma fill_one_row (vals : list Np.scalar) (m i : nat) (row : list Np.scalar) :
  length row = length vals →
  (i + m)%nat = length vals →
  take i row = take i vals →
  fill (1, Z.of_nat (length vals)) vals i
       ((fun j => (0, Z.of_nat j)) <$> seq i m) [row]
  = Ok [vals].
Proof.
  revert i row. induction m as [|m IH]; intros i row Hlen Him Htake.
  - simpl. rewrite Nat.add_0_r in Him. subst i.
    rewrite take_ge in Htake by lia. rewrite (take_ge vals) in Htake by lia.
    now subst row.
  - rewrite <- cons_seq, fmap_cons.
    destruct (lookup_lt_is_Some_2 vals i) as [v Hv]; [lia|].
    assert (Hcol : col_of (1, Z.of_nat (length vals)) (0, Z.of_nat i) = i).
    { unfold col_of. simpl. rewrite mod_in_bounds by lia. apply Nat2Z.id. }
    apply fill_cons. exists v, row. split; [exact Hv|]. split; [|split; [reflexivity|]].
    + split; simpl; lia.
    + rewrite Hcol. change (row_of (1, Z.of_nat (length vals)) (0, Z.of_nat i)) with 0%nat.
      simpl. apply IH.
      * now rewrite length_insert.
      * lia.
      * rewrite (take_S_r _ _ v) by (apply list_lookup_insert_eq; lia).
        rewrite (take_S_r vals _ v) by exact Hv.
        rewrite take_insert_ge by lia. now rewrite Htake.
Qed.

Lemma number_lists_label (self : FeatureIO) (code : list Z) (arr : list Np.scalar) :
  translate self code = Ok arr →
  number_lists self (label_tensor code) = Ok [arr].
Proof.
  intros Harr. apply number_lists_ok. exists arr. simpl.
  split; [exact Harr|]. split; [lia|]. split; [lia|].
  pose proof Harr as Hlen. apply translate_ok, Forall2_length in Hlen.
  rewrite Hlen, Nat2Z.id. apply fill_one_row.
  - apply length_replicate.
  - reflexivity.
  - reflexivity.
Qed.

Lemma int_to_char_ordinal (self : FeatureIO) (c : N) :
  in_char_dict self c → printable c →
  int_to_char self (Np.Scalar (Np.Str (Py.str (Z.of_N c)))) = Ok [c].
Proof.
  intros Hcd [_ Hone]. simpl.
  destruct (decide (Py.str (Z.of_N c) = lit "1")) as [Heq|_]; [|exact Hcd].
  now apply str_not_one in Heq.
Qed.

Lemma str_lists_label (self : FeatureIO) (cs : pystr) :
  Forall (in_char_dict self) cs → Forall printable cs →
  str_lists self [(fun c => Np.Str (Py.str (Z.of_N c))) <$> cs]
  = Ok [(fun c => [c]) <$> cs].
Proof.
  intros Hcd Hpr. apply str_lists_ok. constructor; [|constructor].
  apply Forall2_fmap. apply Forall_Forall2_diag.
  rewrite Forall_forall in Hcd, Hpr. apply Forall_forall. intros c Hin.
  apply int_to_char_ordinal; auto.
Qed.

Lemma join_row_chars (s : pystr) :
  Forall printable s → join_row ((fun c => [c]) <$> s) = s.
Proof.
  induction 1 as [|c s [Hzero _] _ IH]; [reflexivity|].
  rewrite fmap_cons, join_row_keep, IH; [reflexivity|].
  intros [= ->]. now apply Hzero.
Qed.

Lemma label_round_trip {tables : Unicode} (self : FeatureIO) (label : pystr)
    (code : list Z) :
  NoDup (keys (ord_map self)) →
  Forall (fun k => canonical k = true) (keys (ord_map self)) →
  legible self label →
  encode_label self label = Ok code →
  sparse_tensor_to_str self (label_tensor code) = Ok [lower_each label].
Proof.
  intros Hnd Hcan (Hsl & Hom & Hcd & Hpr) Hcode.
  destruct (encode_label_back self Hnd Hcan label Hsl Hom) as (code' & Hcode' & Hrel).
  assert (code' = code) as -> by congruence.
  apply sparse_tensor_to_str_ok.
  exists [(fun c => Np.Str (Py.str (Z.of_N c))) <$> lower_each label],
         [(fun c => [c]) <$> lower_each label].
  split; [|split].
  - apply number_lists_label. now apply translate_back.
  - now apply str_lists_label.
  - simpl. now rewrite join_row_chars.
Qed.

(** C1, as the code has it. Let the keys of [ord_map] be distinct decimal
    integers, and take a label each of whose characters has one character
    as lower case, which has its ordinal among the values of [ord_map], is
    mapped from that ordinal to itself by [char_dict], and is neither
    U+0000 nor U+0001. Then the label encodes, and the one-row sparse
    tensor of the encoded label decodes to the label lower-cased character
    by character; that is the lower-cased label when the label has no
    capital sigma. *)
Theorem encode_decode {tables : Unicode} (self : FeatureIO) (label : pystr) :
  NoDup (keys (ord_map self)) →
  Forall (fun k => canonical k = true) (keys (ord_map self)) →
  Forall single_lower label →
  Forall (in_ord_map self) (lower_each label) →
  Forall (in_char_dict self) (lower_each label) →
  Forall printable (lower_each label) →
  ∃ code,
    encode_labels self [label] = Ok ([code], [Z.of_nat (length label)])
    ∧ sparse_tensor_to_str self (label_tensor code) = Ok [lower_each label]
    ∧ (CAPITAL_SIGMA ∉ label →
       sparse_tensor_to_str self (label_tensor code) = Ok [Py.lower label]).
Proof.
  intros Hnd Hcan Hsl Hom Hcd Hpr.
  destruct (encode_label_back self Hnd Hcan label Hsl Hom) as (code & Hcode & Hrel).
  assert (Hback : sparse_tensor_to_str self (label_tensor code) = Ok [lower_each label]).
  { apply label_round_trip; [assumption | assumption | | assumption].
    split; [|split; [|split]]; assumption. }
  exists code. split; [|split; [exact Hback|]].
  - cbn [encode_labels]. rewrite Hcode. reflexivity.
  - intros Hsigma. now rewrite (lower_no_sigma label Hsigma).
Qed.

Lemma encode_decode_witness :
  ∃ code,
    encode_labels (tables := UCD.excerpt) ab_dicts [lit "Ab"]
    = Ok ([code], [Z.of_nat (length (lit "Ab"))])
    ∧ sparse_tensor_to_str ab_dicts (label_tensor code) = Ok [lit "ab"]
    ∧ sparse_tensor_to_str ab_dicts (label_tensor code)
      = Ok [Py.lower (tables := UCD.excerpt) (lit "Ab")].
Proof.
  destruct (encode_decode (tables := UCD.excerpt) ab_dicts (lit "Ab"))
    as (code & Hcode & Heach & Hlower).
  - decided.
  - each computed.
  - decided.
  - decided.
  - decided.
  - decided.
  - exists code. split; [exact Hcode|]. split; [exact Heach|].
    apply Hlower. decided.
Defined.

(** C1 as stated fails on the two characters the decoder reserves, and on
    the final sigma. With dictionaries that hold U+0000 (index 0, ordinal
    0), the label made of that character encodes to [0] and decodes to the
    empty string, through the sparse decoder and through [int_to_char] on
    the index alike; with dictionaries that hold U+0001 (index 0, ordinal
    1), the label made of that character encodes to [0] and the sparse
    decoder gives the empty string. With Greek dictionaries, the label of a
    capital alpha and a capital sigma encodes character by character, to
    alpha and sigma, and decodes to these, while the lower-cased label
    ends in the final sigma. In all cases the keys are distinct and
    canonical and [char_dict] maps the ordinals to the characters. *)
Lemma reserved_characters_lost :
  (NoDup (keys (ord_map nul_dicts))
   ∧ Forall (fun k => canonical (tables := UCD.excerpt) k = true) (keys (ord_map nul_dicts))
   ∧ Forall (in_ord_map nul_dicts) (Py.lower (tables := UCD.excerpt) NUL)
   ∧ Forall (in_char_dict nul_dicts) (Py.lower (tables := UCD.excerpt) NUL)
   ∧ encode_labels (tables := UCD.excerpt) nul_dicts [NUL] = Ok ([[0]], [1])
   ∧ sparse_tensor_to_str nul_dicts (label_tensor [0]) = Ok [[]]
   ∧ join_row <$> mapM (fun n => int_to_char nul_dicts (Np.Int n)) [0] = Ok []
   ∧ [] ≠ Py.lower (tables := UCD.excerpt) NUL)
  ∧ (NoDup (keys (ord_map soh_dicts))
     ∧ Forall (fun k => canonical (tables := UCD.excerpt) k = true) (keys (ord_map soh_dicts))
     ∧ Forall (in_ord_map soh_dicts) (Py.lower (tables := UCD.excerpt) [1%N])
     ∧ Forall (in_char_dict soh_dicts) (Py.lower (tables := UCD.excerpt) [1%N])
     ∧ encode_labels (tables := UCD.excerpt) soh_dicts [[1%N]] = Ok ([[0]], [1])
     ∧ sparse_tensor_to_str soh_dicts (label_tensor [0]) = Ok [[]]
     ∧ [] ≠ Py.lower (tables := UCD.excerpt) [1%N])
  ∧ (let label := [0x391; 0x3A3]%N in
     NoDup (keys (ord_map greek_dicts))
     ∧ Forall (fun k => canonical (tables := UCD.excerpt) k = true) (keys (ord_map greek_dicts))
     ∧ Py.lower (tables := UCD.excerpt) label = [0x3B1; 0x3C2]%N
     ∧ Forall (in_ord_map greek_dicts) (Py.lower (tables := UCD.excerpt) label)
     ∧ Forall (in_char_dict greek_dicts) (Py.lower (tables := UCD.excerpt) label)
     ∧ Forall printable (Py.lower (tables := UCD.excerpt) label)
     ∧ encode_labels (tables := UCD.excerpt) greek_dicts [label] = Ok ([[4; 2]], [2])
     ∧ sparse_tensor_to_str greek_dicts (label_tensor [4; 2]) = Ok [[0x3B1; 0x3C3]%N]
     ∧ [0x3B1; 0x3C3]%N ≠ Py.lower (tables := UCD.excerpt) label).
Proof.
  split; [|split].
  - split; [decided|]. split; [each computed|]. split; [decided|].
    split; [decided|]. split; [reflexivity|]. split; [reflexivity|].
    split; [reflexivity | discriminate].
  - split; [decided|]. split; [each computed|]. split; [decided|].
    split; [decided|]. split; [reflexivity|]. split; [reflexivity | discriminate].
  - cbv zeta.
    assert (Hlow : Py.lower (tables := UCD.excerpt) [0x391; 0x3A3]%N
                   = [0x3B1; 0x3C2]%N) by (vm_compute; reflexivity).
    rewrite Hlow.
    split; [decided|]. split; [each computed|]. split; [reflexivity|].
    split; [decided|]. split; [decided|]. split; [decided|].
    split; [vm_compute; reflexivity|]. split; [vm_compute; reflexivity|].
    discriminate.
Qed.

(** * Further properties *)

(** ** Encoding a batch *)

Lemma encode_label_length {tables : Unicode} (self : FeatureIO) (label : pystr)
    (code : list Z) :
  encode_label self label = Ok code → length code = length label.
Proof.
  revert code. induction label as [|c label IH]; cbn [encode_label]; intros code.
  - now intros [= <-].
  - intros (n & _ & H)%bind_ok. apply bind_ok in H as (ns & Hns & [= <-]).
    simpl. now rewrite (IH ns).
Qed.

Lemma encode_labels_ok {tables : Unicode} (self : FeatureIO) (labels : list pystr)
    (encoded : list (list Z)) (lengths : list Z) :
  encode_labels self labels = Ok (encoded, lengths) ↔
  Forall2 (fun label code => encode_label self label = Ok code) labels encoded
  ∧ lengths = map (fun label : pystr => Z.of_nat (length label)) labels.
Proof.
  revert encoded lengths.
  induction labels as [|label labels IH]; intros encoded lengths; cbn [encode_labels].
  - split.
    + intros [= <- <-]. split; [constructor | reflexivity].
    + intros [H ->]. inversion H. reflexivity.
  - split.
    + intros (code & Hcode & H)%bind_ok.
      apply bind_ok in H as ([codes lens] & Hrest & [= <- <-]).
      apply IH in Hrest as [Hall ->]. split; [now constructor | reflexivity].
    + intros [H ->]. inversion H as [|? code ? codes Hcode Hrest]; subst.
      rewrite Hcode, bind_Ok.
      rewrite (proj2 (IH codes _) (conj Hrest eq_refl)). reflexivity.
Qed.

(** X1. What [encode_labels] returns is aligned with its input: one
    encoded label and one length per label, in order; the length is the
    number of characters of the label, and the encoded label has as many
    indices. *)
Theorem encode_labels_aligned {tables : Unicode} (self : FeatureIO)
    (labels : list pystr) (encoded : list (list Z)) (lengths : list Z) :
  encode_labels self labels = Ok (encoded, lengths) →
  length encoded = length labels
  ∧ lengths = map (fun label : pystr => Z.of_nat (length label)) labels
  ∧ Forall2 (fun code len => Z.of_nat (length code) = len) encoded lengths.
Proof.
  intros [Hall ->]%encode_labels_ok. split; [|split; [reflexivity|]].
  - symmetry. eapply Forall2_length, Hall.
  - apply Forall2_fmap_r, Forall2_flip.
    eapply Forall2_impl; [exact Hall|]. intros label code Hcode.
    simpl. now rewrite (encode_label_length _ _ _ Hcode).
Qed.

Lemma encode_labels_aligned_witness :
  length [[0; 2]; [2; 0]] = length [lit "ab"; lit "Ba"]
  ∧ [2; 2] = map (fun label : pystr => Z.of_nat (length label)) [lit "ab"; lit "Ba"]
  ∧ Forall2 (fun code len => Z.of_nat (length code) = len) [[0; 2]; [2; 0]] [2; 2].
Proof.
  apply (encode_labels_aligned (tables := UCD.excerpt) ab_dicts). reflexivity.
Defined.

Section Total.

Context {tables : Unicode}.
Variable self : FeatureIO.
Hypothesis keys_read : integer_keys (ord_map self).

(** With integer keys, [char_to_int] returns on an encodable character,
    and raises [KeyError] or [TypeError] on another, by the number of
    characters of its lower case. *)
Lemma char_to_int_integer_keys (c : N) :
  match char_to_int self [c] with
  | Ok _ => encodable self c
  | Raise e =>
      ¬ encodable self c
      ∧ e = if decide (single_lower c) then KeyError else TypeError
  end.
Proof.
  unfold encodable. destruct (decide (single_lower c)) as [Hs|Hns].
  - apply single_lower_spec in Hs as [c' Hlow].
    rewrite Hlow, (char_to_int_single self [c] c' Hlow). unfold in_ord_map, dict_values.
    destruct (decide (Py.str (Z.of_N c') ∈ (ord_map self).*2)) as [Hin|Hnot].
    + destruct (scan_found _ _ Hin) as (k & Hk & ->).
      unfold integer_keys in keys_read. rewrite Forall_forall in keys_read.
      assert (Hint : is_ok (Py.int k) = true).
      { apply keys_read. unfold keys. apply list_elem_of_fmap.
        exists (k, Py.str (Z.of_N c')). auto. }
      destruct (Py.int k); [exact Hin | discriminate Hint].
    + rewrite (scan_miss _ _ Hnot). auto.
  - rewrite (char_to_int_several self [c] Hns). split; [|reflexivity].
    unfold single_lower in Hns.
    destruct (Py.lower [c]) as [|c' [|c'' rest]]; auto.
Qed.

Lemma encode_label_integer_keys (label : pystr) :
  match encode_label self label with
  | Ok _ => Forall (encodable self) label
  | Raise e =>
      ¬ Forall (encodable self) label
      ∧ (e = KeyError ∨ (e = TypeError ∧ Exists (fun c => ¬ single_lower c) label))
  end.
Proof.
  induction label as [|c label IH]; cbn [encode_label]; [constructor|].
  pose proof (char_to_int_integer_keys c) as Hc.
  destruct (char_to_int self [c]) as [n|e].
  - rewrite bind_Ok. destruct (encode_label self label) as [code|e]; simpl.
    + now constructor.
    + destruct IH as [Hnot He]. split.
      * intros [_ H]%Forall_cons. contradiction.
      * destruct He as [->|[-> Hex]]; [now left | right].
        split; [reflexivity | now apply Exists_cons_tl].
  - simpl. destruct Hc as [Hnot ->]. split.
    + intros [H _]%Forall_cons. contradiction.
    + destruct (decide (single_lower c)) as [_|Hns]; [now left | right].
      split; [reflexivity | now apply Exists_cons_hd].
Qed.

Lemma encode_labels_integer_keys (labels : list pystr) :
  match encode_labels self labels with
  | Ok _ => Forall (Forall (encodable self)) labels
  | Raise e =>
      ¬ Forall (Forall (encodable self)) labels
      ∧ (e = KeyError
         ∨ (e = TypeError ∧ Exists (Exists (fun c => ¬ single_lower c)) labels))
  end.
Proof.
  induction labels as [|label labels IH]; cbn [encode_labels]; [constructor|].
  pose proof (encode_label_integer_keys label) as Hl.
  destruct (encode_label self label) as [code|e].
  - rewrite bind_Ok. destruct (encode_labels self labels) as [[codes lens]|e]; simpl.
    + now constructor.
    + destruct IH as [Hnot He]. split.
      * intros [_ H]%Forall_cons. contradiction.
      * destruct He as [->|[-> Hex]]; [now left | right].
        split; [reflexivity | now apply Exists_cons_tl].
  - simpl. destruct Hl as [Hnot He]. split.
    + intros [H _]%Forall_cons. contradiction.
    + destruct He as [->|[-> Hex]]; [now left | right].
      split; [reflexivity | now apply Exists_cons_hd].
Qed.

End Total.

(** X2. When every key of [ord_map] reads as an integer, [encode_labels]
    returns exactly when every character of every label is encodable: its
    lower case is one character, whose ordinal is among the values of
    [ord_map]. Otherwise it raises [KeyError] or [TypeError], the latter
    only when the lower case of some character is not one character; so on
    labels without such characters it raises [KeyError]. *)
Theorem encode_labels_total {tables : Unicode} (self : FeatureIO)
    (labels : list pystr) :
  integer_keys (ord_map self) →
  ((∃ r, encode_labels self labels = Ok r) ↔ Forall (Forall (encodable self)) labels)
  ∧ (∀ e, encode_labels self labels = Raise e → e = KeyError ∨ e = TypeError)
  ∧ (encode_labels self labels = Raise TypeError →
     Exists (Exists (fun c => ¬ single_lower c)) labels)
  ∧ (Forall (Forall single_lower) labels →
     ¬ Forall (Forall (encodable self)) labels →
     encode_labels self labels = Raise KeyError).
Proof.
  intros Hkeys. pose proof (encode_labels_integer_keys self Hkeys labels) as H.
  destruct (encode_labels self labels) as [r|e].
  - split; [split; eauto|]. split; [discriminate|]. split; [discriminate|].
    intros _ Hnot. contradiction.
  - destruct H as [Hnot He]. split; [split|split; [|split]].
    + intros [r [=]].
    + intros Hall. contradiction.
    + intros e' [= <-]. destruct He as [->|[-> _]]; auto.
    + intros [= ->]. destruct He as [[=]|[_ Hex]]. exact Hex.
    + intros Hsingle _. destruct He as [->|[-> Hex]]; [reflexivity|].
      exfalso. apply Exists_exists in Hex as (label & Hin & Hex).
      apply Exists_exists in Hex as (c & Hc & Hns).
      rewrite Forall_forall in Hsingle. specialize (Hsingle label Hin).
      rewrite Forall_forall in Hsingle. apply Hns, Hsingle, Hc.
Qed.

Lemma encode_labels_total_witness :
  ((∃ r, encode_labels (tables := UCD.excerpt) dotted_dicts [lit "i"; [0x130%N]] = Ok r)
   ↔ Forall (Forall (encodable (tables := UCD.excerpt) dotted_dicts)) [lit "i"; [0x130%N]])
  ∧ encode_labels (tables := UCD.excerpt) dotted_dicts [lit "i"; [0x130%N]]
    = Raise TypeError
  ∧ encode_labels (tables := UCD.excerpt) ab_dicts [lit "ab"; lit "c"] = Raise KeyError.
Proof.
  split; [|split].
  - apply (encode_labels_total (tables := UCD.excerpt) dotted_dicts). each computed.
  - reflexivity.
  - apply (encode_labels_total (tables := UCD.excerpt) ab_dicts).
    + each computed.
    + decided.
    + decided.
Defined.

(** X3. Labels are encoded one by one: encoding a batch in two parts and
    putting the results together is encoding the batch, exceptions
    included. *)
Theorem encode_labels_app {tables : Unicode} (self : FeatureIO)
    (first rest : list pystr) :
  encode_labels self (first ++ rest) =
  match encode_labels self first with
  | Ok (encoded1, lengths1) =>
      match encode_labels self rest with
      | Ok (encoded2, lengths2) => Ok (encoded1 ++ encoded2, lengths1 ++ lengths2)
      | Raise e => Raise e
      end
  | Raise e => Raise e
  end.
Proof.
  induction first as [|label first IH]; cbn [app encode_labels].
  - destruct (encode_labels self rest) as [[? ?]|]; reflexivity.
  - destruct (encode_label self label) as [code|]; simpl; [|reflexivity].
    rewrite IH. destruct (encode_labels self first) as [[e1 l1]|]; simpl; [|reflexivity].
    destruct (encode_labels self rest) as [[e2 l2]|]; reflexivity.
Qed.

(** ** Indices to characters *)

(** X4. [int_to_char] takes a number as an integer or as the string of its
    decimal digits, with the same outcome. *)
Theorem int_to_char_str (self : FeatureIO) (n : Z) :
  int_to_char self (Np.Scalar (Np.Str (Py.str n))) = int_to_char self (Np.Int n).
Proof.
  simpl. destruct (Z.eqb_spec n 1) as [->|Hne]; [reflexivity|].
  destruct (decide (Py.str n = lit "1")) as [Heq|_]; [|reflexivity].
  exfalso. apply Hne. apply str_inj. exact Heq.
Qed.

(** X5. A number other than 1 is looked up in [char_dict] under its decimal
    string: [int_to_char] raises [KeyError] exactly when that string is no
    key, it raises nothing else, and what it returns is the NUL marker or a
    value of [char_dict]. *)
Theorem int_to_char_lookup (self : FeatureIO) (n : Z) :
  (int_to_char self (Np.Int n) = Raise KeyError
   ↔ n ≠ 1 ∧ Py.str n ∉ keys (char_dict self))
  ∧ (∀ e, int_to_char self (Np.Int n) = Raise e → e = KeyError)
  ∧ (∀ s, int_to_char self (Np.Int n) = Ok s →
       (n = 1 ∧ s = NUL) ∨ (n ≠ 1 ∧ (Py.str n, s) ∈ char_dict self)).
Proof.
  simpl. destruct (Z.eqb_spec n 1) as [->|Hne].
  - split; [split; [discriminate | intros [H _]; now contradiction H]|].
    split; [discriminate|]. intros s [= <-]. left. auto.
  - split; [|split].
    + rewrite dict_getitem_miss. tauto.
    + intros e. apply dict_getitem_raises.
    + intros s Hs. right. split; [exact Hne | now apply dict_getitem_ok].
Qed.

(** ** Failures of the decoder *)

(** X6. The values are translated before anything else: a value that is
    no key of [ord_map] makes the decoder raise [KeyError], whatever the
    indices and the shape are. *)
Theorem unknown_value (self : FeatureIO) (st : SparseTensor) :
  ¬ known_values self (values st) →
  sparse_tensor_to_str self st = Raise KeyError.
Proof.
  intros Hnot. unfold sparse_tensor_to_str, number_lists.
  destruct (translate self (values st)) as [arr|e] eqn:Harr.
  - exfalso. apply Hnot. apply translate_known. eauto.
  - apply translate_raises in Harr. now subst e.
Qed.

Lemma unknown_value_witness :
  sparse_tensor_to_str ab_dicts
    {| indices := [(5, 5)]; values := [0; 1]; dense_shape := (-1, 2) |}
  = Raise KeyError.
Proof.
  apply unknown_value. simpl. intros H.
  apply Forall_cons in H as [_ H]. apply Forall_cons in H as [Hone _].
  discriminate Hone.
Defined.

(** X7. With values that are keys of [ord_map], a negative number of rows
    or of columns makes the decoder raise [ValueError], whatever the
    indices are. *)
Theorem negative_shape (self : FeatureIO) (st : SparseTensor) :
  known_values self (values st) →
  (dense_shape st).1 < 0 ∨ (dense_shape st).2 < 0 →
  sparse_tensor_to_str self st = Raise ValueError.
Proof.
  intros [arr Harr]%translate_known Hneg.
  unfold sparse_tensor_to_str, number_lists. rewrite Harr. simpl.
  destruct (dense_shape st) as [rows cols]. unfold Np.ones. simpl in *.
  destruct (Z.ltb_spec rows 0); destruct (Z.ltb_spec cols 0); simpl;
    first [reflexivity | lia].
Qed.

Lemma negative_shape_witness :
  sparse_tensor_to_str ab_dicts
    {| indices := [(5, 5)]; values := [0]; dense_shape := (2, -1) |}
  = Raise ValueError.
Proof.
  apply negative_shape.
  - each computed.
  - right. simpl. lia.
Defined.

(** X8. With values that are keys of [ord_map] and a non-negative shape,
    the decoder raises [IndexError] when there are more index pairs than
    values. *)
Theorem missing_values (self : FeatureIO) (st : SparseTensor) :
  known_values self (values st) →
  0 ≤ (dense_shape st).1 → 0 ≤ (dense_shape st).2 →
  (length (values st) < length (indices st))%nat →
  sparse_tensor_to_str self st = Raise IndexError.
Proof.
  intros [arr Harr]%translate_known Hr Hc Hlen.
  rewrite (sparse_tensor_to_str_fill self st arr Harr Hr Hc).
  destruct (fill (dense_shape st) arr 0 (indices st) _) as [grid|e] eqn:Hfill.
  - exfalso. apply fill_values in Hfill as [Hnil|Hle].
    + rewrite Hnil in Hlen. simpl in Hlen. lia.
    + apply translate_ok, Forall2_length in Harr. simpl in Hle. lia.
  - simpl. apply fill_raises in Hfill. now subst e.
Qed.

Lemma missing_values_witness :
  sparse_tensor_to_str ab_dicts
    {| indices := [(0, 0); (0, 1)]; values := [0]; dense_shape := (1, 2) |}
  = Raise IndexError.
Proof.
  apply missing_values.
  - each computed.
  - simpl. lia.
  - simpl. lia.
  - simpl. lia.
Defined.

(** ** What the decoder returns *)

(** X9. A tensor without entries decodes to one empty string per row: for
    a non-negative shape and values that are keys of [ord_map], the result
    is [rows] empty strings. *)
Theorem no_entries (self : FeatureIO) (st : SparseTensor) :
  indices st = [] →
  known_values self (values st) →
  0 ≤ (dense_shape st).1 → 0 ≤ (dense_shape st).2 →
  sparse_tensor_to_str self st
  = Ok (replicate (Z.to_nat (dense_shape st).1) []).
Proof.
  intros Hidx [arr Harr]%translate_known Hr Hc.
  apply sparse_tensor_to_str_ok.
  exists (replicate (Z.to_nat (dense_shape st).1)
            (replicate (Z.to_nat (dense_shape st).2) (Np.one arr))),
         (replicate (Z.to_nat (dense_shape st).1)
            (replicate (Z.to_nat (dense_shape st).2) NUL)).
  split; [|split].
  - apply number_lists_ok. exists arr. rewrite Hidx. auto.
  - unfold str_lists. apply mapM_replicate, mapM_replicate, int_to_char_fill.
  - change (map join_row ?l) with (join_row <$> l).
    now rewrite fmap_replicate, join_row_all_nul.
Qed.

Lemma no_entries_witness :
  sparse_tensor_to_str ab_dicts
    {| indices := []; values := [0]; dense_shape := (2, 3) |}
  = Ok (replicate (Z.to_nat 2) []).
Proof.
  apply (no_entries ab_dicts {| indices := []; values := [0]; dense_shape := (2, 3) |}).
  - reflexivity.
  - each computed.
  - simpl. lia.
  - simpl. lia.
Defined.

(** X10. With a character dictionary whose values are single characters,
    no decoded string contains the character U+0000: the marker never
    reaches the output. *)
Theorem decoded_without_nul (self : FeatureIO) (st : SparseTensor) (res : list pystr) :
  single_chars (char_dict self) →
  sparse_tensor_to_str self st = Ok res →
  Forall (fun s : pystr => 0%N ∉ s) res.
Proof.
  intros Hsc (grid & strs & _ & Hstrs & ->)%sparse_tensor_to_str_ok.
  apply str_lists_ok in Hstrs. apply Forall_map, Forall_lookup. intros i srow Hi.
  destruct (Forall2_lookup_r _ _ _ _ _ Hstrs Hi) as (row & _ & Hcells).
  apply join_row_no_nul. apply Forall_lookup. intros c s Hs.
  destruct (Forall2_lookup_r _ _ _ _ _ Hcells Hs) as (val & _ & Hval).
  eapply int_to_char_length; [exact Hsc | exact Hval].
Qed.

Lemma decoded_without_nul_witness :
  Forall (fun s : pystr => 0%N ∉ s) [lit "ab"].
Proof.
  apply (decoded_without_nul ab_dicts ab_tensor).
  - each ltac:(simpl; lia).
  - reflexivity.
Defined.

(** X11. A cell of the grid that no entry addresses keeps the fill value
    and decodes to the NUL marker. *)
Theorem unaddressed_cell (self : FeatureIO) (st : SparseTensor)
    (grid : list (list Np.scalar)) (r c : nat) :
  number_lists self st = Ok grid →
  (Z.of_nat r < (dense_shape st).1) → (Z.of_nat c < (dense_shape st).2) →
  (∀ index, index ∈ indices st →
     ¬ (row_of (dense_shape st) index = r ∧ col_of (dense_shape st) index = c)) →
  ∃ val, cell grid r c = Some val
         ∧ (val = Np.Str (lit "1") ∨ val = Np.FloatOne)
         ∧ int_to_char self (Np.Scalar val) = Ok NUL.
Proof.
  intros (arr & _ & _ & _ & Hfill)%number_lists_ok Hr Hc Hnone.
  exists (Np.one arr). split; [|split].
  - rewrite (fill_cell_untouched _ _ r c _ _ _ _ Hfill).
    + unfold cell. rewrite lookup_replicate_2 by lia. simpl.
      apply lookup_replicate_2. lia.
    + apply Forall_forall. exact Hnone.
  - destruct arr; auto.
  - apply int_to_char_fill.
Qed.

Lemma unaddressed_cell_witness :
  ∃ val, cell [[Np.Str (lit "1"); Np.Str (lit "97")]] 0 0 = Some val
         ∧ (val = Np.Str (lit "1") ∨ val = Np.FloatOne)
         ∧ int_to_char ab_dicts (Np.Scalar val) = Ok NUL.
Proof.
  apply (unaddressed_cell ab_dicts
           {| indices := [(0, -1)]; values := [0]; dense_shape := (1, 2) |}).
  - reflexivity.
  - simpl. lia.
  - simpl. lia.
  - intros index Hin. apply elem_of_cons in Hin as [->|Hin].
    + intros [_ H]. discriminate H.
    + now apply elem_of_nil in Hin.
Defined.

(** ** Paths *)

Lemma from_sep_spec (s : pystr) :
  ((47%N ∉ s) ∧ from_sep s = [])
  ∨ ((47%N ∈ s) ∧ ∃ rest, from_sep s = 47%N :: rest).
Proof.
  induction s as [|c s IH]; cbn [from_sep].
  - left. split; [apply not_elem_of_nil | reflexivity].
  - destruct (N.eqb_spec c 47) as [->|Hne].
    + right. split; [left | eauto].
    + destruct IH as [[Hnot Heq]|[Hin Heq]].
      * left. split; [|exact Heq].
        intros [Hc|Hin]%elem_of_cons; [congruence | contradiction].
      * right. split; [now right | exact Heq].
Qed.

Lemma reverse_empty {A} (l : list A) : reverse l = [] → l = [].
Proof.
  intros H. apply (f_equal length) in H. rewrite length_reverse in H.
  now destruct l.
Qed.

(** The directory part of a path is empty exactly when the path has no
    separator. *)
Lemma split_head_empty (p : pystr) : split_head p = [] ↔ 47%N ∉ p.
Proof.
  unfold split_head.
  assert (Hmem : 47%N ∈ reverse p ↔ 47%N ∈ p) by apply elem_of_reverse.
  destruct (from_sep_spec (reverse p)) as [[Hnot ->]|[Hin [rest ->]]].
  - simpl. split; [|reflexivity]. intros _. now rewrite <- Hmem.
  - split.
    + intros H. exfalso.
      destruct (lstrip_sep (47%N :: rest)) as [|c stripped] eqn:Hs;
        apply reverse_empty in H; discriminate H.
    + intros Hnot. exfalso. apply Hnot, Hmem, Hin.
Qed.

(** ** The feature wrappers in the loop *)

Lemma int64_list_ok (value : list Z) :
  Forall int64 value → int64_list value = Ok (Int64List value).
Proof.
  intros H. unfold int64_list. destruct (decide (Forall int64 value)); [reflexivity|].
  contradiction.
Qed.

Lemma int64_list_raises (value : list Z) :
  ¬ Forall int64 value → int64_list value = Raise ValueError.
Proof.
  intros H. unfold int64_list. destruct (decide (Forall int64 value)); [|reflexivity].
  contradiction.
Qed.

(** The record of an aligned position, with an encoded label and a length
    that fit [int64] and a name that UTF-8 encodes. *)
Lemma make_example_aligned (labels : list (list Z)) (lengths : list Z)
    (imagenames : list pystr) (index : nat) (image : list byte)
    (code : list Z) (len : Z) (name : pystr) (name_bytes : list byte) :
  labels !! index = Some code → lengths !! index = Some len →
  imagenames !! index = Some name →
  Forall int64 code → int64 len → utf8 name = Ok name_bytes →
  make_example labels lengths imagenames index image
  = Ok (record_of code image name_bytes len).
Proof.
  intros Hcode Hlen Hname Hfit Hfitlen Hutf.
  unfold make_example, Py.getitem, int64_feature, bytes_feature.
  rewrite Hcode, bind_Ok, (int64_list_ok code Hfit), !bind_Ok.
  rewrite Hname, bind_Ok, Hutf, !bind_Ok, Hlen, bind_Ok.
  rewrite (int64_list_ok [len]) by (constructor; [exact Hfitlen | constructor]).
  reflexivity.
Qed.

(** ** Writing records *)

Section Records.

Context {W : Type} {storage : Storage W}.

Variable tfrecords_path : pystr.
Variable labels : list (list Z).
Variable lengths : list Z.
Variable imagenames : list pystr.
Variable all : list (list byte).

Hypothesis labels_fit : Forall (Forall int64) labels.
Hypothesis lengths_fit : Forall int64 lengths.
Hypothesis names_encode : Forall (fun name => is_ok (utf8 name) = true) imagenames.

(** On aligned lists the loop builds a record at every position, and
    writes these records. *)
Lemma write_loop_aligned (images : list (list byte)) :
  ∀ index : nat,
    (index + length images ≤ length labels)%nat →
    (index + length images ≤ length lengths)%nat →
    (index + length images ≤ length imagenames)%nat →
    ∃ records,
      (∀ w, write_loop tfrecords_path labels lengths imagenames all index images w
            = write_records tfrecords_path imagenames all index records w)
      ∧ length records = length images
      ∧ ∀ j image, images !! j = Some image →
          ∃ code name len name_bytes,
            labels !! (index + j)%nat = Some code
            ∧ imagenames !! (index + j)%nat = Some name
            ∧ lengths !! (index + j)%nat = Some len
            ∧ utf8 name = Ok name_bytes
            ∧ records !! j = Some (record_of code image name_bytes len).
Proof.
  induction images as [|image images IH]; intros index Hl Hn Hm; simpl in Hl, Hn, Hm.
  - exists []. split; [reflexivity|]. split; [reflexivity|].
    intros j image Hj. discriminate Hj.
  - destruct (lookup_lt_is_Some_2 labels index) as [code Hcode]; [lia|].
    destruct (lookup_lt_is_Some_2 lengths index) as [len Hlen]; [lia|].
    destruct (lookup_lt_is_Some_2 imagenames index) as [name Hname]; [lia|].
    assert (Hfit : Forall int64 code).
    { rewrite Forall_lookup in labels_fit. eauto. }
    assert (Hfitlen : int64 len).
    { rewrite Forall_lookup in lengths_fit. eauto. }
    assert (Hutf : ∃ name_bytes, utf8 name = Ok name_bytes).
    { rewrite Forall_lookup in names_encode. specialize (names_encode _ _ Hname).
      destruct (utf8 name); [eauto | discriminate]. }
    destruct Hutf as [name_bytes Hutf].
    destruct (IH (S index)) as (records & Heq & Hlenr & Hrec); [lia | lia | lia |].
    exists (record_of code image name_bytes len :: records). split; [|split].
    + intros w. cbn [write_loop write_records].
      rewrite (make_example_aligned _ _ _ _ image code len name name_bytes)
        by assumption.
      destruct (write_record _ _ w) as [w1 [[]|e]]; [|reflexivity].
      destruct (print_status _ _ _ w1) as [w2 [[]|e]]; [|reflexivity].
      apply Heq.
    + simpl. now rewrite Hlenr.
    + intros [|j] image' Hj; simpl in Hj.
      * injection Hj as <-. exists code, name, len, name_bytes.
        rewrite Nat.add_0_r. auto.
      * destruct (Hrec j image' Hj) as (code' & name' & len' & bytes' & H1 & H2 & H3 & H4 & H5).
        exists code', name', len', bytes'.
        replace (index + S j)%nat with (S index + j)%nat by lia. auto.
Qed.

End Records.

Section Written.

Context {tables : Unicode} {W : Type} {storage : Storage W}.

(** The call on a batch that has passed the checks and the encoding. *)
Lemma write_features_encoded (self : FeatureIO) (tfrecords_path : pystr)
    (labels : list pystr) (images : list (list byte)) (imagenames : list pystr)
    (w : W) (r : list (list Z) * list Z) :
  length labels = length images →
  length images = length imagenames →
  images ≠ [] →
  encode_labels self labels = Ok r →
  write_features self tfrecords_path labels images imagenames w =
  match makedirs (split_head tfrecords_path) w with
  | (w, Raise e) => (w, Raise e)
  | (w, Ok _) =>
      match with_writer tfrecords_path
              (write_loop tfrecords_path r.1 r.2 imagenames images 0 images) w with
      | (w, Raise e) => (w, Raise e)
      | (w, Ok _) => print_newline w
      end
  end.
Proof.
  intros Hli Hin Hne Henc. unfold write_features.
  rewrite Hli, Hin, !Nat.eqb_refl. simpl.
  destruct imagenames as [|name names]; [destruct images; [congruence | discriminate]|].
  rewrite Henc. now destruct r.
Qed.

Lemma with_writer_ext (path : pystr) (body body' : W → W * result unit) (w : W) :
  (∀ w, body w = body' w) → with_writer path body w = with_writer path body' w.
Proof.
  intros Hext. unfold with_writer.
  destruct (open_writer path w) as [w1 [[]|e]]; [|reflexivity].
  now rewrite Hext.
Qed.

(** The records of a batch that has passed the checks and the encoding. *)
Lemma write_features_stored (self : FeatureIO) (tfrecords_path : pystr)
    (labels : list pystr) (images : list (list byte)) (imagenames : list pystr)
    (encoded : list (list Z)) (lengths : list Z) :
  length labels = length images →
  length images = length imagenames →
  images ≠ [] →
  encode_labels self labels = Ok (encoded, lengths) →
  Forall (Forall int64) encoded →
  Forall int64 lengths →
  Forall (fun name => is_ok (utf8 name) = true) imagenames →
  ∃ records,
    (∀ w, write_features self tfrecords_path labels images imagenames w
          = stored tfrecords_path imagenames images records w)
    ∧ length records = length images
    ∧ ∀ i label image name,
        labels !! i = Some label → images !! i = Some image →
        imagenames !! i = Some name →
        ∃ code name_bytes,
          encode_label self label = Ok code
          ∧ utf8 name = Ok name_bytes
          ∧ records !! i
            = Some (record_of code image name_bytes (Z.of_nat (length label))).
Proof.
  intros Hli Hin Hne Henc Hfit Hfitlen Hutf.
  pose proof Henc as [Hall Hlens]%encode_labels_ok.
  pose proof (Forall2_length _ _ _ Hall) as Hle.
  destruct (write_loop_aligned tfrecords_path encoded lengths imagenames images
              Hfit Hfitlen Hutf images 0)
    as (records & Hloop & Hlen & Hrec).
  { simpl. lia. } { rewrite Hlens, length_map. simpl. lia. } { simpl. lia. }
  exists records. split; [|split; [exact Hlen|]].
  - intros w. rewrite (write_features_encoded _ _ _ _ _ _ _ Hli Hin Hne Henc).
    unfold stored. simpl.
    destruct (makedirs (split_head tfrecords_path) w) as [w1 [[]|e]]; [|reflexivity].
    now rewrite (with_writer_ext _ _ _ w1 Hloop).
  - intros i label image name Hlabel Himage Hname.
    destruct (Hrec i image Himage)
      as (code & name' & len & name_bytes & Hcode & Hname' & Hlength & Hbytes & Hr).
    simpl in Hcode, Hname', Hlength.
    destruct (Forall2_lookup_l _ _ _ _ _ Hall Hlabel) as (code' & Hcode' & Henc').
    assert (code' = code) as -> by congruence.
    assert (name' = name) as -> by congruence.
    rewrite Hlens in Hlength. change (map ?f labels) with (f <$> labels) in Hlength.
    rewrite list_lookup_fmap, Hlabel in Hlength. injection Hlength as <-.
    exists code, name_bytes. auto.
Qed.

End Written.

(** X12. A batch that passes the checks is stored whole. For three lists
    of one length, not empty, labels that encode to indices fitting
    [int64], and names that UTF-8 encodes: no record fails to be built, and
    the call is the storing of one record per image, in order; the record
    at a position has the encoded label, the image, the name in UTF-8 and
    the number of characters of the label of that position. Whether the
    call returns is up to the storage: the directory is made, then the
    records are written within the writer of the path, each followed by its
    status line, and an action that raises ends the call. *)
Theorem write_features_records {tables : Unicode} {W : Type} {storage : Storage W}
    (self : FeatureIO) (tfrecords_path : pystr)
    (labels : list pystr) (images : list (list byte)) (imagenames : list pystr)
    (w : W) (encoded : list (list Z)) (lengths : list Z) :
  length labels = length images →
  length images = length imagenames →
  images ≠ [] →
  encode_labels self labels = Ok (encoded, lengths) →
  Forall (Forall int64) encoded →
  Forall int64 lengths →
  Forall (fun name => is_ok (utf8 name) = true) imagenames →
  ∃ records,
    write_features self tfrecords_path labels images imagenames w
    = stored tfrecords_path imagenames images records w
    ∧ length records = length images
    ∧ ∀ i label image name,
        labels !! i = Some label → images !! i = Some image →
        imagenames !! i = Some name →
        ∃ code name_bytes,
          encode_label self label = Ok code
          ∧ utf8 name = Ok name_bytes
          ∧ records !! i
            = Some (record_of code image name_bytes (Z.of_nat (length label))).
Proof.
  intros Hli Hin Hne Henc Hfit Hfitlen Hutf.
  destruct (write_features_stored self tfrecords_path labels images imagenames
              encoded lengths Hli Hin Hne Henc Hfit Hfitlen Hutf)
    as (records & Hcall & Hlen & Hrec).
  exists records. split; [apply Hcall | split; assumption].
Qed.

(** The integers of a concrete list fit [int64]. *)
Ltac fits := idtac; unfold int64; lia.

Lemma write_features_records_witness :
  ∃ records,
    write_features (tables := UCD.excerpt) (storage := journal) ab_dicts
      (lit "out/train.tfrecords") [lit "ab"; lit "B"]
      [[x00%byte]; [x01%byte]] [lit "one"; lit "two"] []
    = stored (storage := journal) (lit "out/train.tfrecords") [lit "one"; lit "two"]
        [[x00%byte]; [x01%byte]] records []
    ∧ length records = length [[x00%byte]; [x01%byte]]
    ∧ ∀ i label image name,
        [lit "ab"; lit "B"] !! i = Some label →
        [[x00%byte]; [x01%byte]] !! i = Some image →
        [lit "one"; lit "two"] !! i = Some name →
        ∃ code name_bytes,
          encode_label (tables := UCD.excerpt) ab_dicts label = Ok code
          ∧ utf8 name = Ok name_bytes
          ∧ records !! i
            = Some (record_of code image name_bytes (Z.of_nat (length label))).
Proof.
  apply (write_features_records (tables := UCD.excerpt) (storage := journal)
           ab_dicts _ _ _ _ [] [[0; 2]; [2]] [2; 1]).
  - reflexivity.
  - reflexivity.
  - discriminate.
  - reflexivity.
  - each ltac:(each fits).
  - each fits.
  - each computed.
Defined.

(** The journal of that call: the directory, the writer, two records each
    with its status line, the closing of the writer, the last line. *)
Example write_features_journal :
  write_features (tables := UCD.excerpt) (storage := journal) ab_dicts
    (lit "out/train.tfrecords") [lit "ab"; lit "B"]
    [[x00%byte]; [x01%byte]] [lit "one"; lit "two"] []
  = ([Makedirs (lit "out");
      Open (lit "out/train.tfrecords");
      Write (lit "out/train.tfrecords")
        (record_of [0; 2] [x00%byte] [x6f; x6e; x65]%byte 2);
      Status 0;
      Write (lit "out/train.tfrecords")
        (record_of [2] [x01%byte] [x74; x77; x6f]%byte 1);
      Status 1;
      Close (lit "out/train.tfrecords");
      Newline], Ok tt).
Proof. vm_compute. reflexivity. Qed.

(** X14. Labels are encoded before the writer is opened: when the lists
    have one length and are not empty, an exception of [encode_labels] is
    the exception of the call, and the storage is not touched. *)
Theorem write_features_unencodable {tables : Unicode} {W : Type}
    {storage : Storage W} (self : FeatureIO) (tfrecords_path : pystr)
    (labels : list pystr) (images : list (list byte)) (imagenames : list pystr)
    (w : W) (e : exn) :
  length labels = length images →
  length images = length imagenames →
  images ≠ [] →
  encode_labels self labels = Raise e →
  write_features self tfrecords_path labels images imagenames w = (w, Raise e).
Proof.
  intros Hli Hin Hne Henc. unfold write_features.
  rewrite Hli, Hin, !Nat.eqb_refl. simpl.
  destruct imagenames as [|name names]; [destruct images; [congruence | discriminate]|].
  now rewrite Henc.
Qed.

Lemma write_features_unencodable_witness :
  write_features (tables := UCD.excerpt) (storage := journal) ab_dicts
    (lit "out/train.tfrecords") [lit "ab"; lit "abc"]
    [[x00%byte]; [x01%byte]] [lit "one"; lit "two"] []
  = ([], Raise KeyError).
Proof.
  apply write_features_unencodable.
  - reflexivity.
  - reflexivity.
  - discriminate.
  - reflexivity.
Defined.

(** X15. A call without names never returns: with an empty list of names
    it raises [AssertionError] when the other lists are not both empty, and
    [ValueError] (from [max] over no names) when the batch is empty; the
    storage is not touched. *)
Theorem write_features_no_names {tables : Unicode} {W : Type}
    {storage : Storage W} (self : FeatureIO) (tfrecords_path : pystr)
    (labels : list pystr) (images : list (list byte)) (w : W) :
  write_features self tfrecords_path labels images [] w
  = (w, Raise (if decide (labels = [] ∧ images = [])
               then ValueError else AssertionError)).
Proof.
  unfold write_features.
  destruct labels as [|label labels]; destruct images as [|image images]; simpl;
    try reflexivity.
  destruct (Nat.eqb_spec (length labels) (length images)); reflexivity.
Qed.

(** X16. A path without a directory part is refused: after the checks and
    the encoding have passed, [os.makedirs] is given the empty name and the
    call raises [FileNotFoundError]; the storage is not touched. *)
Theorem write_features_bare_name {tables : Unicode} {W : Type}
    {storage : Storage W} (self : FeatureIO) (tfrecords_path : pystr)
    (labels : list pystr) (images : list (list byte)) (imagenames : list pystr)
    (w : W) (r : list (list Z) * list Z) :
  length labels = length images →
  length images = length imagenames →
  images ≠ [] →
  encode_labels self labels = Ok r →
  47%N ∉ tfrecords_path →
  write_features self tfrecords_path labels images imagenames w
  = (w, Raise FileNotFoundError).
Proof.
  intros Hli Hin Hne Henc Hsep.
  rewrite (write_features_encoded _ _ _ _ _ _ _ Hli Hin Hne Henc).
  apply split_head_empty in Hsep. rewrite Hsep, makedirs_empty. reflexivity.
Qed.

Lemma write_features_bare_name_witness :
  write_features (tables := UCD.excerpt) (storage := journal) ab_dicts
    (lit "train.tfrecords") [lit "ab"] [[x00%byte]] [lit "one"] []
  = ([], Raise FileNotFoundError).
Proof.
  apply (write_features_bare_name (tables := UCD.excerpt) (storage := journal)
           ab_dicts _ _ _ _ _ ([[0; 2]], [2])).
  - reflexivity.
  - reflexivity.
  - discriminate.
  - reflexivity.
  - decided.
Defined.

(** ** The feature wrappers *)

Section Int64Feature.

Context {other : Type}.
Variable int_float : other → result Z.

Lemma convert_spec (value : list (Features.elem other)) (is_int : bool)
    (value_tmp : list Z) :
  Features.convert other int_float value is_int value_tmp =
  match mapM int_float (Features.others other value) with
  | Ok ns =>
      Ok (match Features.others other value with [] => is_int | _ => false end,
          value_tmp ++ ns)
  | Raise e => Raise e
  end.
Proof.
  revert is_int value_tmp.
  induction value as [|[n|x] value IH]; intros is_int value_tmp.
  - simpl. now rewrite app_nil_r.
  - simpl. apply IH.
  - change (Features.others other (Features.NotInt x :: value))
      with (x :: Features.others other value).
    simpl. destruct (int_float x) as [n|e]; simpl; [|reflexivity].
    rewrite IH. destruct (mapM int_float (Features.others other value)) as [ns|e];
      simpl; [|reflexivity].
    rewrite <- app_assoc. simpl. now destruct (Features.others other value).
Qed.

Lemma others_ints (l : list Z) :
  Features.others other (Features.IsInt <$> l) = []
  ∧ Features.ints other (Features.IsInt <$> l) = l.
Proof.
  induction l as [|n l [IH1 IH2]]; [split; reflexivity|].
  split; [exact IH1|].
  change (Features.ints other (Features.IsInt <$> n :: l))
    with (n :: Features.ints other (Features.IsInt <$> l)).
  now rewrite IH2.
Qed.

(** X17. On instances of [int] that fit [int64], [int64_feature] stores
    what it is given: a list of integers as it is, one integer as the list
    of that integer; an integer outside [int64] makes it raise
    [ValueError]. This is the wrapper as [write_features] uses it. *)
Theorem int64_feature_ints (l : list Z) (n : Z) :
  Features.int64_feature other int_float (inr (Features.IsInt <$> l))
  = int64_feature (inr l)
  ∧ Features.int64_feature other int_float (inl (Features.IsInt n))
    = int64_feature (inl n)
  ∧ (Forall int64 l → int64_feature (inr l) = Ok (Int64List l))
  ∧ (¬ Forall int64 l → int64_feature (inr l) = Raise ValueError)
  ∧ (int64 n → int64_feature (inl n) = Ok (Int64List [n]))
  ∧ (¬ int64 n → int64_feature (inl n) = Raise ValueError).
Proof.
  split; [|split; [reflexivity|]].
  - unfold Features.int64_feature. rewrite convert_spec.
    destruct (others_ints l) as [-> ->]. reflexivity.
  - split; [apply int64_list_ok|]. split; [apply int64_list_raises|]. split.
    + intros Hn. apply int64_list_ok. constructor; [exact Hn | constructor].
    + intros Hn. apply int64_list_raises. intros [H _]%Forall_cons. contradiction.
Qed.

(** X18. As soon as one element of the list is no instance of [int], the
    integers of the list are lost: the feature holds the conversions of
    the other elements only, in order, when these fit [int64]; the call
    raises [ValueError] when one of them does not, and what a conversion
    raises when one raises. *)
Theorem int64_feature_mixed (value : list (Features.elem other)) :
  Features.others other value ≠ [] →
  Features.int64_feature other int_float (inr value)
  = match mapM int_float (Features.others other value) with
    | Ok ns =>
        if decide (Forall int64 ns) then Ok (Int64List ns) else Raise ValueError
    | Raise e => Raise e
    end.
Proof.
  intros Hne. unfold Features.int64_feature. rewrite convert_spec.
  destruct (mapM int_float (Features.others other value)) as [ns|e]; [|reflexivity].
  destruct (Features.others other value); [congruence | reflexivity].
Qed.

End Int64Feature.

Lemma int64_feature_mixed_witness :
  Features.int64_feature Z (fun x => Ok x)
    (inr [Features.IsInt 1; Features.NotInt 2; Features.IsInt 3; Features.NotInt 4])
  = Ok (Int64List [2; 4])
  ∧ Features.int64_feature Z (fun x => Ok x)
      (inr [Features.IsInt 1; Features.NotInt (2 ^ 63)])
    = Raise ValueError.
Proof.
  split.
  - rewrite (int64_feature_mixed (fun x : Z => Ok x)) by discriminate.
    simpl. destruct (decide (Forall int64 [2; 4])) as [_|Hn]; [reflexivity|].
    exfalso. apply Hn. each fits.
  - rewrite (int64_feature_mixed (fun x : Z => Ok x)) by discriminate.
    simpl. destruct (decide (Forall int64 [2 ^ 63])) as [H|_]; [|reflexivity].
    exfalso. apply Forall_cons in H as [H _]. unfold int64 in H. lia.
Defined.

(** ** UTF-8 *)

Lemma byte_of_inj (n m : N) :
  (n < 256)%N → (m < 256)%N → byte_of n = byte_of m → n = m.
Proof.
  unfold byte_of. intros Hn Hm H.
  apply (f_equal ascii_of_byte) in H. rewrite !ascii_of_byte_of_ascii in H.
  apply (f_equal N_of_ascii) in H. now rewrite !N_ascii_embedding in H.
Qed.

Lemma div_mod_64 (c : N) :
  ∃ q m, (c / 64 = q ∧ c mod 64 = m ∧ c = 64 * q + m ∧ m < 64)%N.
Proof.
  exists (c / 64)%N, (c mod 64)%N.
  split; [reflexivity|]. split; [reflexivity|]. split.
  - apply N.div_mod'.
  - now apply N.mod_upper_bound.
Qed.

(** The bytes of a code point, by their number: the first byte tells how
    many follow, and the bytes hold the code point six bits at a time. *)
Lemma utf8_char_cases (c : N) (bs : list byte) :
  utf8_char c = Ok bs →
  ((c < 0x80)%N ∧ bs = [byte_of c])
  ∨ (∃ q m1, (c = 64 * q + m1 ∧ m1 < 64 ∧ q < 32)%N
       ∧ bs = [byte_of (0xC0 + q); byte_of (0x80 + m1)])
  ∨ (∃ q m2 m1, (c = 4096 * q + 64 * m2 + m1 ∧ m1 < 64 ∧ m2 < 64 ∧ q < 16)%N
       ∧ bs = [byte_of (0xE0 + q); byte_of (0x80 + m2); byte_of (0x80 + m1)])
  ∨ (∃ q m3 m2 m1,
       (c = 262144 * q + 4096 * m3 + 64 * m2 + m1
        ∧ m1 < 64 ∧ m2 < 64 ∧ m3 < 64 ∧ q < 8)%N
       ∧ bs = [byte_of (0xF0 + q); byte_of (0x80 + m3); byte_of (0x80 + m2);
               byte_of (0x80 + m1)]).
Proof.
  unfold utf8_char, Py.between.
  destruct (div_mod_64 c) as (q1 & m1 & Hq1 & Hm1 & Hc & Hlt1).
  destruct (div_mod_64 q1) as (q2 & m2 & Hq2 & Hm2 & Hc1 & Hlt2).
  destruct (div_mod_64 q2) as (q3 & m3 & Hq3 & Hm3 & Hc2 & Hlt3).
  assert (H4096 : (c / 4096 = q2)%N).
  { change 4096%N with (64 * 64)%N. now rewrite <- N.Div0.div_div, Hq1. }
  assert (H262144 : (c / 262144 = q3)%N).
  { change 262144%N with (4096 * 64)%N. now rewrite <- N.Div0.div_div, H4096. }
  rewrite H4096, H262144, Hq1, Hm1, Hm2, Hm3.
  destruct (N.ltb_spec c 0x80); [intros [= <-]; now left|].
  destruct (N.ltb_spec c 0x800).
  { intros [= <-]. right. left. exists q1, m1. split; [lia | reflexivity]. }
  destruct ((0xD800 <=? c) && (c <=? 0xDFFF))%N; [discriminate|].
  destruct (N.ltb_spec c 0x10000).
  { intros [= <-]. right. right. left. exists q2, m2, m1. split; [lia | reflexivity]. }
  destruct (N.ltb_spec c 0x110000); [|discriminate].
  intros [= <-]. right. right. right. exists q3, m3, m2, m1. split; [lia | reflexivity].
Qed.

(** No encoding of a code point begins the encoding of another. *)
Lemma utf8_char_prefix (c1 c2 : N) (b1 b2 r1 r2 : list byte) :
  utf8_char c1 = Ok b1 → utf8_char c2 = Ok b2 →
  b1 ++ r1 = b2 ++ r2 → c1 = c2 ∧ r1 = r2.
Proof.
  intros H1 H2 Heq.
  destruct (utf8_char_cases _ _ H1)
    as [[Hc1 ->]|[(q & m1 & Hc1 & ->)|[(q & m2 & m1 & Hc1 & ->)
                  |(q & m3 & m2 & m1 & Hc1 & ->)]]];
    destruct (utf8_char_cases _ _ H2)
      as [[Hc2 ->]|[(q' & m1' & Hc2 & ->)|[(q' & m2' & m1' & Hc2 & ->)
                    |(q' & m3' & m2' & m1' & Hc2 & ->)]]];
    cbn [app] in Heq; injection Heq; clear Heq; intros;
    repeat match goal with
           | H : byte_of _ = byte_of _ |- _ => apply byte_of_inj in H; [|lia|lia]
           end;
    first [ split; [lia | assumption] | exfalso; lia ].
Qed.

Lemma utf8_char_not_nil (c : N) : utf8_char c ≠ Ok [].
Proof.
  intros H. destruct (utf8_char_cases _ _ H)
    as [[_ [=]]|[(? & ? & _ & [=])|[(? & ? & ? & _ & [=])|(? & ? & ? & ? & _ & [=])]]].
Qed.

Lemma utf8_cons (c : N) (s : pystr) (b : list byte) :
  utf8 (c :: s) = Ok b ↔
  ∃ b1 b2, utf8_char c = Ok b1 ∧ utf8 s = Ok b2 ∧ b = b1 ++ b2.
Proof.
  cbn [utf8]. split.
  - intros (b1 & H1 & H)%bind_ok. apply bind_ok in H as (b2 & H2 & [= <-]). eauto.
  - intros (b1 & b2 & -> & -> & ->). reflexivity.
Qed.

(** Two strings with the same UTF-8 encoding are the same string. *)
Lemma utf8_inj (s1 s2 : pystr) (b : list byte) :
  utf8 s1 = Ok b → utf8 s2 = Ok b → s1 = s2.
Proof.
  revert s2 b. induction s1 as [|c1 s1 IH]; intros [|c2 s2] b H1 H2.
  - reflexivity.
  - exfalso. injection H1 as <-.
    apply utf8_cons in H2 as (b1 & b2 & Hc & _ & Heq).
    destruct b1; [now apply utf8_char_not_nil in Hc | discriminate Heq].
  - exfalso. injection H2 as <-.
    apply utf8_cons in H1 as (b1 & b2 & Hc & _ & Heq).
    destruct b1; [now apply utf8_char_not_nil in Hc | discriminate Heq].
  - apply utf8_cons in H1 as (b1 & b1' & Hc1 & Hs1 & ->).
    apply utf8_cons in H2 as (b2 & b2' & Hc2 & Hs2 & Heq).
    destruct (utf8_char_prefix _ _ _ _ _ _ Hc1 Hc2 Heq) as [-> ->].
    f_equal. eapply IH; eassumption.
Qed.

(** X19. [bytes_feature] keeps strings apart: two strings with the same
    feature are the same string, and so are two lists of strings. A name
    can be told from its record. A string and the list of that string give
    the same feature, or the same exception. *)
Theorem bytes_feature_inj :
  (∀ (s1 s2 : pystr) (feature : Feature),
     bytes_feature (inr s1) = Ok feature → bytes_feature (inr s2) = Ok feature →
     s1 = s2)
  ∧ (∀ (l1 l2 : list pystr) (feature : Feature),
       Features.bytes_feature (Features.StrList l1) = Ok feature →
       Features.bytes_feature (Features.StrList l2) = Ok feature →
       l1 = l2)
  ∧ (∀ s : pystr,
       Features.bytes_feature (Features.Str s) = bytes_feature (inr s)
       ∧ Features.bytes_feature (Features.StrList [s]) = bytes_feature (inr s)).
Proof.
  split; [|split].
  - intros s1 s2 feature. unfold bytes_feature.
    intros (b1 & H1 & [= <-])%bind_ok (b2 & H2 & [= ->])%bind_ok.
    eapply utf8_inj; eassumption.
  - intros l1 l2 feature. unfold Features.bytes_feature.
    intros (b1 & H1 & ->)%fmap_ok (b2 & H2 & [= ->])%fmap_ok.
    apply mapM_ok in H1, H2. revert l2 H2.
    induction H1 as [|s1 b l1 bs Hs1 _ IH]; intros l2 H2.
    + now inversion H2.
    + inversion H2 as [|s2 ? l2' ? Hs2 Hrest]; subst.
      f_equal; [eapply utf8_inj; eassumption | now apply IH].
  - intros s. split; [reflexivity|].
    unfold Features.bytes_feature, bytes_feature. cbn [mapM].
    destruct (utf8 s); reflexivity.
Qed.

(** ** The order of the entries *)

Lemma fill_entries (shape : Z * Z) (vals : list Np.scalar) (idx : list (Z * Z)) :
  ∀ (i : nat) (g : list (list Np.scalar)),
    (i + length idx ≤ length vals)%nat →
    fill shape vals i idx g = write_entries shape (zip idx (drop i vals)) g.
Proof.
  induction idx as [|index rest IH]; intros i g Hlen; [reflexivity|].
  simpl in Hlen. destruct (lookup_lt_is_Some_2 vals i) as [v Hv]; [lia|].
  rewrite (drop_S _ _ _ Hv). simpl. unfold Py.getitem. rewrite Hv. simpl.
  destruct (Np.setitem shape g index.1 index.2 v) as [g'|e]; simpl; [|reflexivity].
  apply IH. lia.
Qed.

(** Two writes to different cells can be done in either order. *)
Lemma setitem_swap (shape : Z * Z) (g : list (list Np.scalar)) (x y : Z * Z)
    (vx vy : Np.scalar) :
  address shape x ≠ address shape y →
  (g1 ← Np.setitem shape g x.1 x.2 vx; Np.setitem shape g1 y.1 y.2 vy)
  = (g1 ← Np.setitem shape g y.1 y.2 vy; Np.setitem shape g1 x.1 x.2 vx).
Proof.
  intros Hne. rewrite (setitem_eq shape g x), (setitem_eq shape g y).
  destruct (decide (addressable shape x)) as [Hx|Hx];
    destruct (decide (addressable shape y)) as [Hy|Hy].
  - assert (Hpos : ¬ (row_of shape y = row_of shape x ∧ col_of shape y = col_of shape x)).
    { intros [Hr Hc]. apply Hne. symmetry. now apply address_positions. }
    destruct (g !! row_of shape x) as [rowx|] eqn:Hrx;
      destruct (g !! row_of shape y) as [rowy|] eqn:Hry;
      rewrite ?bind_Ok, ?bind_Raise, ?setitem_eq;
      repeat (destruct (decide (addressable shape _)); [|contradiction]).
    + destruct (decide (row_of shape x = row_of shape y)) as [Heq|Hrow].
      * rewrite <- Heq in *. assert (rowy = rowx) as -> by congruence.
        rewrite !list_lookup_insert_eq by (eapply lookup_lt_Some, Hrx).
        rewrite !list_insert_insert_eq. f_equal. f_equal.
        apply list_insert_insert_ne. intros Hc. apply Hpos. auto.
      * rewrite !list_lookup_insert_ne by congruence. rewrite Hrx, Hry.
        f_equal. apply list_insert_insert_ne. congruence.
    + rewrite list_lookup_insert_ne by congruence. now rewrite Hry.
    + rewrite list_lookup_insert_ne by congruence. now rewrite Hrx.
    + reflexivity.
  - destruct (g !! row_of shape x);
      rewrite ?bind_Ok, ?bind_Raise, ?setitem_eq; [|reflexivity].
    destruct (decide (addressable shape y)); [contradiction | reflexivity].
  - destruct (g !! row_of shape y);
      rewrite ?bind_Ok, ?bind_Raise, ?setitem_eq; [|reflexivity].
    destruct (decide (addressable shape x)); [contradiction | reflexivity].
  - reflexivity.
Qed.

Lemma write_entries_two (shape : Z * Z) (a b : Z * Z) (va vb : Np.scalar)
    (l : list ((Z * Z) * Np.scalar)) (g : list (list Np.scalar)) :
  write_entries shape ((a, va) :: (b, vb) :: l) g
  = (g1 ← Np.setitem shape g a.1 a.2 va; Np.setitem shape g1 b.1 b.2 vb)
      ≫= write_entries shape l.
Proof.
  simpl. destruct (Np.setitem shape g a.1 a.2 va) as [g1|e]; reflexivity.
Qed.

Lemma write_entries_perm (shape : Z * Z) (e1 e2 : list ((Z * Z) * Np.scalar)) :
  e1 ≡ₚ e2 →
  NoDup (address shape <$> e1.*1) →
  ∀ g, write_entries shape e1 g = write_entries shape e2 g.
Proof.
  induction 1 as [|[x vx] l l' Hperm IH|[x vx] [y vy] l|l l' l'' H1 IH1 H2 IH2];
    intros Hnd g.
  - reflexivity.
  - simpl. rewrite !fmap_cons in Hnd. apply NoDup_cons in Hnd as [_ Hnd].
    destruct (Np.setitem shape g x.1 x.2 vx); simpl; [now apply IH | reflexivity].
  - rewrite !fmap_cons in Hnd. apply NoDup_cons in Hnd as [Hnot _].
    assert (Hne : address shape y ≠ address shape x).
    { intros Heq. apply Hnot. simpl. rewrite Heq. left. }
    rewrite !write_entries_two. now rewrite (setitem_swap shape g y x vy vx Hne).
  - rewrite IH1 by exact Hnd. apply IH2.
    eapply NoDup_Permutation_proper; [|exact Hnd].
    apply fmap_Permutation, fmap_Permutation. now symmetry.
Qed.

Lemma write_entries_app (shape : Z * Z) (e1 e2 : list ((Z * Z) * Np.scalar))
    (g : list (list Np.scalar)) :
  write_entries shape (e1 ++ e2) g
  = write_entries shape e1 g ≫= write_entries shape e2.
Proof.
  revert g. induction e1 as [|[index v] e1 IH]; intros g; [reflexivity|].
  simpl. destruct (Np.setitem shape g index.1 index.2 v); simpl; [apply IH | reflexivity].
Qed.

Lemma one_length (a b : list Np.scalar) : length a = length b → Np.one a = Np.one b.
Proof. destruct a, b; simpl; intros H; first [reflexivity | discriminate H]. Qed.

Lemma fst_prod_map {A B C} (f : B → C) (l : list (A * B)) :
  (prod_map id f <$> l).*1 = l.*1.
Proof.
  induction l as [|[a b] l IH]; [reflexivity|].
  rewrite !fmap_cons, IH. reflexivity.
Qed.

Lemma number_lists_entries (self : FeatureIO) (st : SparseTensor) :
  known_values self (values st) →
  length (indices st) = length (values st) →
  number_lists self st =
  (ones ← Np.ones (dense_shape st) (Np.one (element self <$> values st));
   write_entries (dense_shape st)
     (prod_map id (element self) <$> zip (indices st) (values st)) ones).
Proof.
  intros Hknown Hlen. unfold number_lists.
  rewrite (translate_element _ _ Hknown), bind_Ok.
  destruct (Np.ones (dense_shape st) _) as [g0|e]; [|reflexivity].
  rewrite !bind_Ok, fill_entries by (rewrite length_fmap; simpl; lia).
  rewrite prod_map_zip, list_fmap_id. reflexivity.
Qed.

(** X20. The order of the entries does not matter when no two of them
    address the same cell: two sparse tensors of one shape whose entries
    (index pair with its value) are the same up to their order decode
    alike, to the same strings or the same exception. *)
Theorem entry_order (self : FeatureIO) (st1 st2 : SparseTensor) :
  dense_shape st1 = dense_shape st2 →
  length (indices st1) = length (values st1) →
  length (indices st2) = length (values st2) →
  zip (indices st1) (values st1) ≡ₚ zip (indices st2) (values st2) →
  NoDup (address (dense_shape st1) <$> indices st1) →
  sparse_tensor_to_str self st1 = sparse_tensor_to_str self st2.
Proof.
  intros Hshape Hlen1 Hlen2 Hperm Hnd.
  assert (Hvals : values st1 ≡ₚ values st2).
  { rewrite <- (snd_zip (indices st1) (values st1)) by lia.
    rewrite <- (snd_zip (indices st2) (values st2)) by lia.
    now apply fmap_Permutation. }
  assert (Hgrid : number_lists self st1 = number_lists self st2).
  { destruct (translate self (values st1)) as [arr1|e1] eqn:Harr1.
    - assert (Hk1 : known_values self (values st1)) by (apply translate_known; eauto).
      assert (Hk2 : known_values self (values st2)).
      { unfold known_values. now rewrite <- Hvals. }
      rewrite !number_lists_entries by assumption.
      rewrite <- Hshape.
      rewrite (one_length (element self <$> values st2) (element self <$> values st1))
        by (rewrite !length_fmap; symmetry; now apply Permutation_length).
      destruct (Np.ones (dense_shape st1) _) as [g0|e]; [|reflexivity].
      rewrite !bind_Ok. apply write_entries_perm.
      + now apply fmap_Permutation.
      + rewrite fst_prod_map, fst_zip by lia. exact Hnd.
    - unfold number_lists. rewrite Harr1.
      destruct (translate self (values st2)) as [arr2|e2] eqn:Harr2.
      + exfalso. assert (Hk1 : known_values self (values st1)).
        { unfold known_values. rewrite Hvals. apply translate_known. eauto. }
        apply translate_known in Hk1 as [arr1 Hk1]. congruence.
      + apply translate_raises in Harr1, Harr2. now subst. }
  unfold sparse_tensor_to_str. now rewrite Hgrid.
Qed.

Lemma entry_order_witness :
  sparse_tensor_to_str ab_dicts
    {| indices := [(0, 0); (-1, -1)]; values := [0; 2]; dense_shape := (1, 2) |}
  = sparse_tensor_to_str ab_dicts
      {| indices := [(-1, -1); (0, 0)]; values := [2; 0]; dense_shape := (1, 2) |}.
Proof.
  apply entry_order.
  - reflexivity.
  - reflexivity.
  - reflexivity.
  - simpl. apply perm_swap.
  - decided.
Defined.

(** ** From the record back to the label *)

(** X21. What the writer stores can be decoded. For dictionaries whose
    [ord_map] keys are distinct decimal integers and a batch of legible
    labels that passes the checks of [write_features], with indices and
    lengths fitting [int64] and names that UTF-8 encodes: the call is the
    storing of one record per label, and the [labels] field of the record
    at each position, decoded as a one-row sparse tensor, is the label of
    that position lower-cased character by character. *)
Theorem written_labels_decode {tables : Unicode} {W : Type} {storage : Storage W}
    (self : FeatureIO) (tfrecords_path : pystr)
    (labels : list pystr) (images : list (list byte)) (imagenames : list pystr)
    (w : W) (encoded : list (list Z)) (lengths : list Z) :
  NoDup (keys (ord_map self)) →
  Forall (fun k => canonical k = true) (keys (ord_map self)) →
  Forall (legible self) labels →
  length labels = length images →
  length images = length imagenames →
  images ≠ [] →
  encode_labels self labels = Ok (encoded, lengths) →
  Forall (Forall int64) encoded →
  Forall int64 lengths →
  Forall (fun name => is_ok (utf8 name) = true) imagenames →
  ∃ records,
    write_features self tfrecords_path labels images imagenames w
    = stored tfrecords_path imagenames images records w
    ∧ length records = length labels
    ∧ ∀ i label, labels !! i = Some label →
        ∃ record code,
          records !! i = Some record
          ∧ ex_labels record = Int64List code
          ∧ sparse_tensor_to_str self (label_tensor code) = Ok [lower_each label].
Proof.
  intros Hnd Hcan Hleg Hli Hin Hne Henc Hfit Hfitlen Hutf.
  destruct (write_features_stored self tfrecords_path labels images imagenames
              encoded lengths Hli Hin Hne Henc Hfit Hfitlen Hutf)
    as (records & Hcall & Hlen & Hrec).
  exists records. split; [apply Hcall|]. split; [lia|].
  intros i label Hlabel.
  destruct (lookup_lt_is_Some_2 images i) as [image Himage].
  { rewrite <- Hli. eapply lookup_lt_Some, Hlabel. }
  destruct (lookup_lt_is_Some_2 imagenames i) as [name Hname].
  { rewrite <- Hin, <- Hli. eapply lookup_lt_Some, Hlabel. }
  destruct (Hrec i label image name Hlabel Himage Hname)
    as (code & name_bytes & Hcode & _ & Hr).
  eexists _, code. split; [exact Hr|]. split; [reflexivity|].
  rewrite Forall_lookup in Hleg.
  eapply label_round_trip; eauto.
Qed.

Lemma written_labels_decode_witness :
  ∃ records,
    write_features (tables := UCD.excerpt) (storage := journal) ab_dicts
      (lit "out/train.tfrecords") [lit "ab"; lit "B"]
      [[x00%byte]; [x01%byte]] [lit "one"; lit "two"] []
    = stored (storage := journal) (lit "out/train.tfrecords") [lit "one"; lit "two"]
        [[x00%byte]; [x01%byte]] records []
    ∧ length records = length [lit "ab"; lit "B"]
    ∧ ∀ i label, [lit "ab"; lit "B"] !! i = Some label →
        ∃ record code,
          records !! i = Some record
          ∧ ex_labels record = Int64List code
          ∧ sparse_tensor_to_str ab_dicts (label_tensor code)
            = Ok [lower_each (tables := UCD.excerpt) label].
Proof.
  apply (written_labels_decode (tables := UCD.excerpt) (storage := journal)
           ab_dicts _ _ _ _ [] [[0; 2]; [2]] [2; 1]).
  - decided.
  - each computed.
  - each decided.
  - reflexivity.
  - reflexivity.
  - discriminate.
  - reflexivity.
  - each ltac:(each fits).
  - each fits.
  - each computed.
Defined.

(** ** A batch of labels, there and back *)

(** Writing a run of values on row [r] from column [c0] on. *)
Lemma write_row (shape : Z * Z) (r : nat) (vs : list Np.scalar) :
  ∀ (c0 : nat) (row : list Np.scalar) (g : list (list Np.scalar)),
    Z.of_nat r < shape.1 →
    Z.of_nat (c0 + length vs) ≤ shape.2 →
    (c0 + length vs ≤ length row)%nat →
    g !! r = Some row →
    write_entries shape
      (zip ((fun c => (Z.of_nat r, Z.of_nat c)) <$> seq c0 (length vs)) vs) g
    = Ok (<[r := take c0 row ++ vs ++ drop (c0 + length vs) row]> g).
Proof.
  induction vs as [|v vs IH]; intros c0 row g Hr Hc Hlen Hrow.
  - simpl. rewrite Nat.add_0_r, take_drop. now rewrite list_insert_id.
  - simpl in Hc, Hlen. cbn [length seq fmap list_fmap zip zip_with write_entries].
    rewrite (setitem_eq shape g (Z.of_nat r, Z.of_nat c0)).
    destruct (decide (addressable shape (Z.of_nat r, Z.of_nat c0))) as [_|Hn];
      [|exfalso; apply Hn; split; simpl; lia].
    assert (Hrow_of : row_of shape (Z.of_nat r, Z.of_nat c0) = r).
    { unfold row_of. simpl. rewrite mod_in_bounds by lia. apply Nat2Z.id. }
    assert (Hcol_of : col_of shape (Z.of_nat r, Z.of_nat c0) = c0).
    { unfold col_of. simpl. rewrite mod_in_bounds by lia. apply Nat2Z.id. }
    rewrite Hrow_of, Hcol_of, Hrow, bind_Ok.
    rewrite (IH (S c0) (<[c0 := v]> row)); try lia.
    + rewrite list_insert_insert_eq. f_equal. f_equal.
      rewrite (take_S_r _ _ v) by (apply list_lookup_insert_eq; lia).
      rewrite take_insert_ge by lia. rewrite drop_insert_lt by lia.
      rewrite <- app_assoc. simpl.
      now replace (S (c0 + length vs)) with (c0 + S (length vs))%nat by lia.
    + rewrite length_insert. lia.
    + apply list_lookup_insert_eq. eapply lookup_lt_Some, Hrow.
Qed.

(** Writing the rows of a batch one after the other fills the grid row by
    row, each row followed by the fill value. *)
Lemma write_batch (rows cols : nat) (fresh : Np.scalar) (arrs : list (list Np.scalar)) :
  ∀ (done : list (list Np.scalar)),
    (length done + length arrs)%nat = rows →
    Forall (fun arr => (length arr ≤ cols)%nat) arrs →
    write_entries (Z.of_nat rows, Z.of_nat cols) (batch_entries (length done) arrs)
      (done ++ replicate (length arrs) (replicate cols fresh))
    = Ok (done ++ ((fun arr => arr ++ replicate (cols - length arr) fresh) <$> arrs)).
Proof.
  induction arrs as [|arr arrs IH]; intros done Hrows Hall; [reflexivity|].
  apply Forall_cons in Hall as [Harr Hrest]. simpl in Hrows.
  cbn [batch_entries]. rewrite write_entries_app.
  rewrite (write_row _ (length done) arr 0 (replicate cols fresh));
    [| simpl; lia | simpl; lia | rewrite length_replicate; simpl; lia
     | rewrite lookup_app_r by lia; now rewrite Nat.sub_diag].
  rewrite bind_Ok.
  assert (Hg : <[length done := take 0 (replicate cols fresh) ++ arr
                                ++ drop (0 + length arr) (replicate cols fresh)]>
                 (done ++ replicate (length (arr :: arrs)) (replicate cols fresh))
               = (done ++ [arr ++ replicate (cols - length arr) fresh])
                   ++ replicate (length arrs) (replicate cols fresh)).
  { simpl. rewrite insert_app_r_alt by lia. rewrite Nat.sub_diag. simpl.
    rewrite drop_replicate, <- app_assoc. reflexivity. }
  rewrite Hg.
  replace (S (length done))
    with (length (done ++ [arr ++ replicate (cols - length arr) fresh]))
    by (rewrite length_app; simpl; lia).
  rewrite IH; [|rewrite length_app; simpl; lia | exact Hrest].
  rewrite fmap_cons, <- app_assoc. reflexivity.
Qed.

Lemma length_batch_indices (r : nat) (codes : list (list Z)) :
  length (batch_indices r codes) = length (concat codes).
Proof.
  revert r. induction codes as [|code codes IH]; intros r; [reflexivity|].
  simpl. rewrite !length_app, length_fmap, length_seq. now rewrite IH.
Qed.

Lemma zip_batch (f : Z → Np.scalar) (r : nat) (codes : list (list Z)) :
  prod_map (@id (Z * Z)%type) f <$> zip (batch_indices r codes) (concat codes)
  = batch_entries r ((fun code : list Z => f <$> code) <$> codes).
Proof.
  revert r. induction codes as [|code codes IH]; intros r; [reflexivity|].
  cbn [batch_indices concat]. rewrite fmap_cons. cbn [batch_entries].
  rewrite zip_with_app by (now rewrite length_fmap, length_seq).
  rewrite fmap_app, IH. f_equal.
  rewrite prod_map_zip, list_fmap_id, length_fmap. reflexivity.
Qed.

(** A row of the grid of a batch decodes to the characters of its label,
    followed by markers. *)
Lemma row_decodes (self : FeatureIO) (cs : pystr) (k : nat) (arr : list Np.scalar) :
  Forall (in_char_dict self) cs → Forall printable cs →
  mapM (fun val => int_to_char self (Np.Scalar val))
       (((fun c => Np.Str (Py.str (Z.of_N c))) <$> cs) ++ replicate k (Np.one arr))
  = Ok (((fun c => [c]) <$> cs) ++ replicate k NUL).
Proof.
  intros Hcd Hpr. rewrite mapM_app.
  assert (Hchars : mapM (fun val => int_to_char self (Np.Scalar val))
                     ((fun c => Np.Str (Py.str (Z.of_N c))) <$> cs)
                   = Ok ((fun c => [c]) <$> cs)).
  { apply mapM_ok, Forall2_fmap, Forall_Forall2_diag.
    rewrite Forall_forall in Hcd, Hpr. apply Forall_forall. intros c Hin.
    apply int_to_char_ordinal; auto. }
  rewrite Hchars, bind_Ok.
  rewrite (mapM_replicate (fun val => int_to_char self (Np.Scalar val)) _ _ NUL
             (int_to_char_fill self arr)).
  reflexivity.
Qed.

(** X22. A batch of labels comes back from the decoder. For dictionaries
    whose [ord_map] keys are distinct decimal integers and legible labels
    of at most [cols] characters: the encoded labels, laid out as a sparse
    tensor with one row per label, decode to the labels lower-cased
    character by character, in order. *)
Theorem batch_round_trip {tables : Unicode} (self : FeatureIO)
    (labels : list pystr) (encoded : list (list Z)) (lengths : list Z) (cols : nat) :
  NoDup (keys (ord_map self)) →
  Forall (fun k => canonical k = true) (keys (ord_map self)) →
  Forall (legible self) labels →
  Forall (fun label : pystr => (length label ≤ cols)%nat) labels →
  encode_labels self labels = Ok (encoded, lengths) →
  sparse_tensor_to_str self (batch_tensor encoded cols) = Ok (map lower_each labels).
Proof.
  intros Hnd Hcan Hleg Hlen [Hall _]%encode_labels_ok.
  set (chars := fun label : pystr =>
         (fun c => Np.Str (Py.str (Z.of_N c))) <$> lower_each label).
  assert (Hchars : ∀ label, legible self label → length (chars label) = length label).
  { intros label (Hsl & _). unfold chars. now rewrite length_fmap, length_lower_each. }
  assert (Hback : Forall2 (fun label code =>
            known_values self code ∧ element self <$> code = chars label) labels encoded).
  { apply Forall2_same_length_lookup_2; [eapply Forall2_length, Hall|].
    intros i label code Hlabel Hcode.
    destruct (Forall2_lookup_l _ _ _ _ _ Hall Hlabel) as (code0 & Hcode0 & Henc).
    assert (code0 = code) as -> by congruence.
    rewrite Forall_lookup in Hleg.
    destruct (Hleg i label Hlabel) as (Hsl & Hom & _ & _).
    destruct (encode_label_back self Hnd Hcan label Hsl Hom) as (code' & Hcode' & Hrel).
    assert (code' = code) as -> by congruence.
    exact (element_back self _ _ Hrel). }
  assert (Hknown : known_values self (concat encoded)).
  { apply Forall_concat. apply Forall_lookup. intros i code Hi.
    destruct (Forall2_lookup_r _ _ _ _ _ Hback Hi) as (label & _ & Hk & _). exact Hk. }
  assert (Harrs : (fun code : list Z => element self <$> code) <$> encoded
                  = chars <$> labels).
  { clear Hknown Hall Hleg Hlen.
    induction Hback as [|label code labels encoded (_ & He) _ IH]; [reflexivity|].
    rewrite !fmap_cons, He, IH. reflexivity. }
  set (fresh := Np.one (element self <$> concat encoded)).
  assert (Hgrid : number_lists self (batch_tensor encoded cols)
                  = Ok ((fun label => chars label
                           ++ replicate (cols - length label) fresh) <$> labels)).
  { rewrite number_lists_entries;
      [|exact Hknown | apply length_batch_indices].
    cbn [batch_tensor dense_shape indices values]. fold fresh.
    assert (Hones : Np.ones (Z.of_nat (length encoded), Z.of_nat cols) fresh
                    = Ok (replicate (length encoded) (replicate cols fresh))).
    { apply ones_ok. simpl. rewrite !Nat2Z.id. split; [lia|]. split; [lia | reflexivity]. }
    rewrite Hones, bind_Ok, zip_batch, Harrs.
    assert (Hl : length labels = length encoded) by (eapply Forall2_length, Hall).
    pose proof (write_batch (length encoded) cols fresh (chars <$> labels) []) as Hw.
    simpl in Hw. rewrite length_fmap, Hl in Hw. rewrite Hw.
    - rewrite <- list_fmap_compose. f_equal. apply list_fmap_ext.
      intros i label Hi. simpl. rewrite Forall_lookup in Hleg.
      now rewrite (Hchars label (Hleg i label Hi)).
    - reflexivity.
    - apply Forall_fmap. apply Forall_lookup. intros i label Hi. simpl.
      rewrite Forall_lookup in Hleg, Hlen.
      rewrite (Hchars label (Hleg i label Hi)). eauto. }
  apply sparse_tensor_to_str_ok.
  eexists _, ((fun label => ((fun c => [c]) <$> lower_each label)
                 ++ replicate (cols - length label) NUL) <$> labels).
  split; [exact Hgrid|]. split.
  - unfold str_lists. apply mapM_ok, Forall2_fmap, Forall_Forall2_diag.
    eapply Forall_impl; [exact Hleg|]. intros label (_ & _ & Hcd & Hpr). simpl.
    now apply row_decodes.
  - change (map ?f ?l) with (f <$> l). rewrite <- list_fmap_compose.
    apply list_fmap_ext. clear Hgrid Hback Harrs Hall.
    rewrite Forall_lookup in Hleg. intros i label Hin. simpl.
    destruct (Hleg i label Hin) as (_ & _ & _ & Hpr).
    rewrite join_row_app, join_row_all_nul, join_row_chars by exact Hpr.
    symmetry. apply app_nil_r.
Qed.

Lemma batch_round_trip_witness :
  sparse_tensor_to_str ab_dicts (batch_tensor [[0; 2]; [2]] 3)
  = Ok (map (lower_each (tables := UCD.excerpt)) [lit "ab"; lit "B"]).
Proof.
  apply (batch_round_trip (tables := UCD.excerpt) ab_dicts
           [lit "ab"; lit "B"] [[0; 2]; [2]] [2; 1] 3).
  - decided.
  - each computed.
  - each decided.
  - each ltac:(simpl; lia).
  - reflexivity.
Defined.

(** ** The float wrapper *)

Section FloatFeature.

Context {float other : Type}.
Variable float_of : other → result float.
Variable of_int : Z → float.

Lemma float_convert_spec (value : list (Features.elem other)) (is_float : bool)
    (value_tmp : list float) :
  Floats.convert float other float_of value is_float value_tmp =
  match mapM float_of (Features.others other value) with
  | Ok xs =>
      Ok (match Features.others other value with [] => is_float | _ => false end,
          value_tmp ++ xs)
  | Raise e => Raise e
  end.
Proof.
  revert is_float value_tmp.
  induction value as [|[n|x] value IH]; intros is_float value_tmp.
  - simpl. now rewrite app_nil_r.
  - simpl. apply IH.
  - change (Features.others other (Features.NotInt x :: value))
      with (x :: Features.others other value).
    simpl. destruct (float_of x) as [y|e]; simpl; [|reflexivity].
    rewrite IH. destruct (mapM float_of (Features.others other value)) as [xs|e];
      simpl; [|reflexivity].
    rewrite <- app_assoc. simpl. now destruct (Features.others other value).
Qed.

(** X23. [float_feature] tests its elements for [int], like
    [int64_feature]: a list of objects none of which is an [int] (floats,
    say) is converted element by element, but as soon as the list mixes
    integers with other objects the integers are lost and the feature
    holds the conversions of the other elements only. *)
Theorem float_feature_mixed (value : list (Features.elem other)) :
  Features.others other value ≠ [] →
  Floats.float_feature float other float_of of_int (inr value)
  = mapM float_of (Features.others other value).
Proof.
  intros Hne. unfold Floats.float_feature. rewrite float_convert_spec.
  destruct (mapM float_of (Features.others other value)) as [xs|e]; [|reflexivity].
  destruct (Features.others other value); [congruence | reflexivity].
Qed.

End FloatFeature.

Lemma float_feature_mixed_witness :
  Floats.float_feature Z Z (fun x => Ok x) (fun n => n)
    (inr [Features.IsInt 1; Features.NotInt 2; Features.IsInt 3])
  = mapM (fun x => Ok x)
      (Features.others Z [Features.IsInt 1; Features.NotInt 2; Features.IsInt 3]).
Proof.
  apply (float_feature_mixed (fun x : Z => Ok x) (fun n : Z => n)). discriminate.
Defined.
